(** * deltagolomb: order-zero Exp-Golomb coding with a delta wrapper

    A shallow embedding of [deltagolomb.go] and the properties of its
    encoder, decoder and delta layer.

    Conventions.
    - Go's [int] and [uint] are taken at 64 bits (the word size the source
      assumes with [egWordBits = 64]); a value of either type is a [Z] and
      every arithmetic operation writes its wrap-around out ([u64], [i64]).
    - A byte is a [Z]; only its low eight bits are ever looked at.
    - The byte sink is a [byteWriter]: the bytes handed to [Write] wait in
      [buffered] until [Flush] moves them to [flushed].
    - The byte source is the list of bytes that [ReadByte] has not returned
      yet; reading from the empty list is the end-of-input error [EOF].
    - A slice out of range panics in Go; the model returns [None] there. *)

From Stdlib Require Import ZArith List Lia Bool.
From stdpp Require Import base list.
Import ListNotations.

Local Open Scope Z_scope.

(** ** Machine integers *)

Definition u64 (z : Z) : Z := z mod 2 ^ 64.

Definition i64 (z : Z) : Z := (z + 2 ^ 63) mod 2 ^ 64 - 2 ^ 63.

(** [x << k] and [x >> k] on a 64-bit unsigned word with an unsigned count:
    Go gives 0 once the count reaches the width. *)
Definition shl64 (x k : Z) : Z :=
  if 64 <=? k then 0 else u64 (Z.shiftl x k).

Definition shr64 (x k : Z) : Z :=
  if 64 <=? k then 0 else Z.shiftr x k.

(** ** The byte sink *)

Record byteWriter := mkWriter {
  buffered : list Z;
  flushed : list Z
}.

Definition bw_Write (w : byteWriter) (p : list Z) : byteWriter :=
  mkWriter (buffered w ++ p) (flushed w).

Definition bw_Flush (w : byteWriter) : byteWriter :=
  mkWriter [] (flushed w ++ buffered w).

(** Everything the sink has been given, in order. *)
Definition written (w : byteWriter) : list Z := flushed w ++ buffered w.

(** ** Encoder *)

Definition egWordBits : Z := 64.

Record ExpGolombEncoder := mkEncoder {
  data : Z;
  bitsleft : Z;
  out : byteWriter;
  outbuf : list Z
}.

Definition NewExpGolombEncoder (w : byteWriter) : ExpGolombEncoder :=
  mkEncoder 0 egWordBits w (repeat 0 8).

(** [binary.BigEndian.PutUint64]: the eight bytes of a word, high byte first. *)
Definition PutUint64 (v : Z) : list Z :=
  [ Z.land (Z.shiftr v 56) 255; Z.land (Z.shiftr v 48) 255;
    Z.land (Z.shiftr v 40) 255; Z.land (Z.shiftr v 32) 255;
    Z.land (Z.shiftr v 24) 255; Z.land (Z.shiftr v 16) 255;
    Z.land (Z.shiftr v 8) 255; Z.land v 255 ].

Definition emitBits (s : ExpGolombEncoder) : ExpGolombEncoder :=
  let ob := PutUint64 (data s) in
  mkEncoder 0 egWordBits (bw_Write (out s) ob) ob.

(** [bs[:nbytes]] panics when [nbytes] exceeds the eight bytes of [bs]. *)
Definition emitPartialBits (s : ExpGolombEncoder) : option ExpGolombEncoder :=
  let bs := PutUint64 (data s) in
  let nbytes := u64 (u64 (egWordBits - bitsleft s) + 7) / 8 in
  if 8 <? nbytes then None
  else
    let o := if 0 <? nbytes then bw_Write (out s) (take (Z.to_nat nbytes) bs)
             else out s in
    Some (mkEncoder 0 egWordBits o (outbuf s)).

Definition addBits (s : ExpGolombEncoder) (bits nbits : Z) : ExpGolombEncoder :=
  if nbits <? bitsleft s then
    mkEncoder (Z.lor (data s) (shl64 bits (u64 (bitsleft s - nbits))))
              (u64 (bitsleft s - nbits)) (out s) (outbuf s)
  else
    let d := Z.lor (data s) (shr64 bits (u64 (nbits - bitsleft s))) in
    let nbits := u64 (nbits - bitsleft s) in
    let s := emitBits (mkEncoder d (bitsleft s) (out s) (outbuf s)) in
    mkEncoder (shl64 bits (u64 (egWordBits - nbits)))
              (u64 (egWordBits - nbits)) (out s) (outbuf s).

(** The loop [for ; nzeros >= egWordBits; nzeros -= egWordBits { emitBits() }]. *)
Fixpoint zeroWords (fuel : nat) (s : ExpGolombEncoder) (nzeros : Z)
  : ExpGolombEncoder * Z :=
  match fuel with
  | O => (s, nzeros)
  | S fuel =>
      if egWordBits <=? nzeros
      then zeroWords fuel (emitBits s) (u64 (nzeros - egWordBits))
      else (s, nzeros)
  end.

Definition addZeroBits (s : ExpGolombEncoder) (nzeros : Z) : ExpGolombEncoder :=
  if nzeros <? bitsleft s then
    mkEncoder (data s) (u64 (bitsleft s - nzeros)) (out s) (outbuf s)
  else
    let nzeros := u64 (nzeros - bitsleft s) in
    let s := emitBits s in
    let '(s, nzeros) := zeroWords (Z.to_nat (nzeros / egWordBits)) s nzeros in
    mkEncoder (data s) (u64 (bitsleft s - nzeros)) (out s) (outbuf s).

(** [bitLen] on a 64-bit [uint]; the result is an [int]. *)
Definition bitLen (x : Z) : Z :=
  let n := 0 in
  let '(x, n) := if 2 ^ 31 <? x then (Z.shiftr x 32, n + 32) else (x, n) in
  let '(x, n) := if 32768 <=? x then (Z.shiftr x 16, n + 16) else (x, n) in
  let '(x, n) := if 128 <=? x then (Z.shiftr x 8, n + 8) else (x, n) in
  let '(x, n) := if 8 <=? x then (Z.shiftr x 4, n + 4) else (x, n) in
  let '(x, n) := if 2 <=? x then (Z.shiftr x 2, n + 2) else (x, n) in
  if 1 <=? x then n + 1 else n.

(** The part of [add] below the [switch]: the general encoding. *)
Definition add_general (s : ExpGolombEncoder) (item : Z) : ExpGolombEncoder :=
  let sign := if item <? 0 then 1 else 0 in
  let item := if item <? 0 then i64 (- item) else item in
  let uitem := u64 item in
  let uitem := u64 (uitem + 1) in
  let nbits := u64 (u64 (bitLen uitem) - 1) in
  let s := addZeroBits s nbits in
  let uitem := Z.lor (shl64 uitem 1) sign in
  addBits s uitem (u64 (nbits + 2)).

Definition add (s : ExpGolombEncoder) (item : Z) : ExpGolombEncoder :=
  if item =? 0 then addBits s 1 1
  else if item =? 1 then addBits s 4 4
  else if item =? -1 then addBits s 5 4
  else if item =? 2 then addBits s 6 4
  else if item =? -2 then addBits s 7 4
  else add_general s item.

Definition Write (s : ExpGolombEncoder) (ilist : list Z) : ExpGolombEncoder :=
  fold_left add ilist s.

Definition WriteInt (s : ExpGolombEncoder) (i : Z) : ExpGolombEncoder :=
  add s i.

Definition Close (s : ExpGolombEncoder) : option ExpGolombEncoder :=
  match (if bitsleft s =? egWordBits then Some s else emitPartialBits s) with
  | Some s => Some (mkEncoder (data s) (bitsleft s) (bw_Flush (out s)) (outbuf s))
  | None => None
  end.

(** [DeltaEncode]: the sink is a [bufio.Writer] over a fresh [bytes.Buffer];
    the result is what reached the buffer. *)
Definition DeltaEncode (start : Z) (values : list Z) : option (list Z) :=
  let egs := NewExpGolombEncoder (mkWriter [] []) in
  let '(egs, _) :=
    fold_left (fun '(egs, prev) i =>
                 let delta := i64 (i - prev) in
                 (Write egs [delta], i))
              values (egs, start) in
  match Close egs with
  | Some egs => Some (flushed (out egs))
  | None => None
  end.

(** ** Decoder *)

Inductive error := EOF.

Record ExpGolombDecoder := mkDecoder {
  r : list Z;
  b : Z;
  state : Z;
  val : Z;
  zeros : Z;
  nBits : Z
}.

Definition COUNTING_ZEROS : Z := 0.
Definition SHIFTING_BITS : Z := 1.
Definition READING_SIGN : Z := 2.

Definition NewExpGolombDecoder (src : list Z) : ExpGolombDecoder :=
  mkDecoder src 0 0 0 0 0.

Definition set_r (s : ExpGolombDecoder) (x : list Z) :=
  mkDecoder x (b s) (state s) (val s) (zeros s) (nBits s).
Definition set_b (s : ExpGolombDecoder) (x : Z) :=
  mkDecoder (r s) x (state s) (val s) (zeros s) (nBits s).
Definition set_state (s : ExpGolombDecoder) (x : Z) :=
  mkDecoder (r s) (b s) x (val s) (zeros s) (nBits s).
Definition set_val (s : ExpGolombDecoder) (x : Z) :=
  mkDecoder (r s) (b s) (state s) x (zeros s) (nBits s).
Definition set_zeros (s : ExpGolombDecoder) (x : Z) :=
  mkDecoder (r s) (b s) (state s) (val s) x (nBits s).
Definition set_nBits (s : ExpGolombDecoder) (x : Z) :=
  mkDecoder (r s) (b s) (state s) (val s) (zeros s) x.

(** The [switch s.state] of [Read], run on one bit; [buf] is the caller's
    slice and [cpos] the next free slot (in range: [Read] has just checked). *)
Definition decodeBit (s : ExpGolombDecoder) (bit : Z) (buf : list Z) (cpos : nat)
  : ExpGolombDecoder * list Z * nat :=
  if state s =? COUNTING_ZEROS then
    if bit =? 0 then (set_zeros s (i64 (zeros s + 1)), buf, cpos)
    else if zeros s =? 0 then (s, <[cpos := 0]> buf, S cpos)
    else (set_val (set_state s SHIFTING_BITS) 1, buf, cpos)
  else if state s =? SHIFTING_BITS then
    let s := set_val s (i64 (Z.shiftl (val s) 1)) in
    let s := set_val s (Z.lor (val s) bit) in
    let s := set_zeros s (i64 (zeros s - 1)) in
    if zeros s =? 0 then
      let s := set_val s (i64 (val s - 1)) in
      let s := set_state s COUNTING_ZEROS in
      (s, <[cpos := val s]> buf, S cpos)
    else (s, buf, cpos)
  else if state s =? READING_SIGN then
    let s := if bit =? 1 then set_val s (i64 (- val s)) else s in
    (set_state s COUNTING_ZEROS, <[cpos := val s]> buf, S cpos)
  else (s, buf, cpos).

(** The inner loop [for s.nBits > 0 { ... }]. The flag is [true] when the
    loop left through [return cpos, nil]. Each turn decrements [nBits], so
    [Z.to_nat (nBits s)] turns are all there are. *)
Fixpoint readBits (fuel : nat) (s : ExpGolombDecoder) (buf : list Z) (cpos : nat)
  : ExpGolombDecoder * list Z * nat * bool :=
  match fuel with
  | O => (s, buf, cpos, false)
  | S fuel =>
      if 0 <? nBits s then
        if (length buf <=? cpos)%nat then (s, buf, cpos, true)
        else
          let bit := Z.land (Z.shiftr (b s) (u64 (nBits s - 1))) 1 in
          let s := set_nBits s (i64 (nBits s - 1)) in
          let '(s, buf, cpos) := decodeBit s bit buf cpos in
          readBits fuel s buf cpos
      else (s, buf, cpos, false)
  end.

(** [ReadByte] on the in-memory source: the next byte, or [0] and [EOF]. *)
Definition ReadByte (src : list Z) : list Z * Z * option error :=
  match src with
  | [] => ([], 0, Some EOF)
  | c :: rest => (rest, c, None)
  end.

(** The outer [for] of [Read]; [None] when the fuel runs out. *)
Fixpoint readLoop (fuel : nat) (s : ExpGolombDecoder) (buf : list Z) (cpos : nat)
  : option (ExpGolombDecoder * list Z * nat * option error) :=
  match fuel with
  | O => None
  | S fuel =>
      let '(s, readError) :=
        if nBits s =? 0 then
          let '(rest, c, readError) := ReadByte (r s) in
          let s := set_b (set_r s rest) c in
          match readError with
          | Some e => (s, Some e)
          | None => (set_nBits s 8, None)
          end
        else (s, None) in
      match readError with
      | Some e => Some (s, buf, cpos, Some e)
      | None =>
          let '(s, buf, cpos, returned) :=
            readBits (Z.to_nat (nBits s)) s buf cpos in
          if returned then Some (s, buf, cpos, None)
          else readLoop fuel s buf cpos
      end
  end.

(** [Read]: one turn of the outer loop for a byte left over from the last
    call, one per byte of the source, and the one that meets the end. *)
Definition Read (s : ExpGolombDecoder) (buf : list Z)
  : option (ExpGolombDecoder * list Z * nat * option error) :=
  readLoop (S (S (length (r s)))) s buf 0%nat.

(** The loop of [DeltaDecode]. *)
Fixpoint deltaLoop (fuel : nat) (decoder : ExpGolombDecoder) (tmp : list Z)
  (v : Z) (res : list Z) : option (list Z) :=
  match fuel with
  | O => None
  | S fuel =>
      match Read decoder tmp with
      | None => None
      | Some (decoder, tmp, n, err) =>
          let '(v, res) :=
            if (0 <? n)%nat then
              let v := i64 (v + default 0 (tmp !! 0%nat)) in (v, res ++ [v])
            else (v, res) in
          match err with
          | Some _ => Some res
          | None => deltaLoop fuel decoder tmp v res
          end
      end
  end.

(** Every call of [Read] that does not end the loop uses up a bit of the
    source, so [8 * length compressed + 1] calls are enough. *)
Definition DeltaDecode (base : Z) (compressed : list Z) : option (list Z) :=
  deltaLoop (S (8 * length compressed)) (NewExpGolombDecoder compressed)
            [0] base [].

(** ** Bit streams

    The reading of words and bytes as bits, most significant bit first:
    [bits_be n x] is the [n]-bit binary representation of [x]. *)

Fixpoint bits_be (n : nat) (x : Z) : list bool :=
  match n with
  | O => []
  | S n => Z.testbit x (Z.of_nat n) :: bits_be n x
  end.

Definition bytes_bits (l : list Z) : list bool := flat_map (bits_be 8) l.

(** ** The encoder seen as a bit stream *)

(** The committed bits still in the accumulator: its top
    [egWordBits - bitsleft] bits. *)
Definition pending (s : ExpGolombEncoder) : list bool :=
  bits_be (Z.to_nat (egWordBits - bitsleft s)) (Z.shiftr (data s) (bitsleft s)).

(** Every bit the encoder has been given so far: those of the bytes handed
    to the sink, then the pending ones. *)
Definition stream (s : ExpGolombEncoder) : list bool :=
  bytes_bits (written (out s)) ++ pending s.

(** The encoder invariant: between 1 and 64 unused positions, a 64-bit
    word, and zeros in the unused low positions. *)
Definition enc_inv (s : ExpGolombEncoder) : Prop :=
  1 <= bitsleft s <= egWordBits /\
  0 <= data s < 2 ^ egWordBits /\
  data s mod 2 ^ bitsleft s = 0.

(** The values of a Go [int] and of a Go [uint]. *)
Definition is_int (z : Z) : Prop := - 2 ^ 63 <= z < 2 ^ 63.
Definition is_uint (z : Z) : Prop := 0 <= z < 2 ^ 64.

(** ** The codeword format, from the words of the specification

    Zero is the single bit 1. A nonzero [v] has sign 0 if [v > 0] else 1,
    [m = |v| + 1] and [nbits = bitlength m - 1]; its codeword is [nbits]
    zero bits, then the [nbits + 2]-bit binary representation of
    [(m << 1) | sign]. *)

Definition bitlength (m : Z) : Z := Z.log2 m + 1.

Definition spec_nbits (v : Z) : Z := bitlength (Z.abs v + 1) - 1.

Definition spec_sign (v : Z) : Z := if 0 <? v then 0 else 1.

Definition spec_codeword (v : Z) : list bool :=
  if v =? 0 then [true]
  else
    let m := Z.abs v + 1 in
    repeat false (Z.to_nat (spec_nbits v))
    ++ bits_be (Z.to_nat (spec_nbits v + 2)) (Z.lor (Z.shiftl m 1) (spec_sign v)).

(** The values the source documents as safe to encode. *)
Definition in_range (v : Z) : Prop := Z.abs v <= 2 ^ 31 - 2.

(** The residuals [DeltaEncode] hands to the encoder. *)
Fixpoint deltas (prev : Z) (values : list Z) : list Z :=
  match values with
  | [] => []
  | i :: rest => i64 (i - prev) :: deltas i rest
  end.

(** ** The decoder seen as a machine over bits *)

(** The three fields the [switch] of [Read] works on. *)
Record parse := mkParse {
  p_state : Z;
  p_val : Z;
  p_zeros : Z
}.

Definition pst (s : ExpGolombDecoder) : parse :=
  mkParse (state s) (val s) (zeros s).

Definition with_pst (s : ExpGolombDecoder) (p : parse) : ExpGolombDecoder :=
  mkDecoder (r s) (b s) (p_state p) (p_val p) (p_zeros p) (nBits s).

(** [decodeBit] seen on the parse fields alone: the new fields and the value
    written to the caller's slice, if one was. *)
Definition parseBit (p : parse) (bit : bool) : parse * option Z :=
  let '(s, buf, c) :=
    decodeBit (mkDecoder [] 0 (p_state p) (p_val p) (p_zeros p) 0)
              (Z.b2z bit) [0] 0%nat in
  (pst s, match c with O => None | S _ => buf !! 0%nat end).

(** All the values a run of bits decodes to, and the fields it ends in. *)
Fixpoint run (p : parse) (bits : list bool) : list Z * parse :=
  match bits with
  | [] => ([], p)
  | bit :: rest =>
      let '(p', e) := parseBit p bit in
      let '(vs, q) := run p' rest in
      (match e with Some v => v :: vs | None => vs end, q)
  end.

(** The same, stopping before the first bit met with no [room] left in the
    caller's slice; also returns the bits not looked at. *)
Fixpoint consume (room : nat) (p : parse) (bits : list bool)
  : list Z * parse * list bool :=
  match bits with
  | [] => ([], p, [])
  | bit :: rest =>
      match room with
      | O => ([], p, bits)
      | S room' =>
          let '(p', e) := parseBit p bit in
          match e with
          | Some v =>
              let '(vs, q, rem) := consume room' p' rest in (v :: vs, q, rem)
          | None => consume room p' rest
          end
      end
  end.

(** Writing values to consecutive slots of a slice. *)
Fixpoint store (buf : list Z) (cpos : nat) (vs : list Z) : list Z :=
  match vs with
  | [] => buf
  | v :: vs => store (<[cpos := v]> buf) (S cpos) vs
  end.

(** The bits the decoder has not looked at yet: the rest of the current
    byte, then the bytes still in the source. *)
Definition avail (s : ExpGolombDecoder) : list bool :=
  bits_be (Z.to_nat (nBits s)) (b s) ++ bytes_bits (r s).

(** The running sums of [DeltaDecode]. *)
Fixpoint sums (v : Z) (ds : list Z) : list Z :=
  match ds with
  | [] => []
  | d :: ds => let v := i64 (v + d) in v :: sums v ds
  end.

(** The parse fields of a new decoder. *)
Definition parse0 : parse := mkParse COUNTING_ZEROS 0 0.

(** The states the [switch] ever assigns. *)
Definition state_ok (s : ExpGolombDecoder) : Prop :=
  state s = COUNTING_ZEROS \/ state s = SHIFTING_BITS.

(** ** Whole streams *)

(** The table at the top of [add], as the bits it appends. *)
Definition table_codeword (v : Z) : list bool :=
  if v =? 0 then [true]
  else if v =? 1 then [false; true; false; false]
  else if v =? -1 then [false; true; false; true]
  else if v =? 2 then [false; true; true; false]
  else [false; true; true; true].

(** Encoding a list of values into a fresh in-memory sink: [Write], then
    [Close]; the bytes that reached the sink. *)
Definition encode (l : list Z) : option (list Z) :=
  match Close (Write (NewExpGolombEncoder (mkWriter [] [])) l) with
  | Some e => Some (flushed (out e))
  | None => None
  end.

(** The source receives more bytes. *)
Definition supply (s : ExpGolombDecoder) (more : list Z) : ExpGolombDecoder :=
  set_r s (r s ++ more).

(** One [Read] per byte of input, each into a slice of [n] slots; all the
    values read, in order. *)
Fixpoint read_bytewise (n : nat) (s : ExpGolombDecoder) (bytes : list Z)
  : option (ExpGolombDecoder * list Z) :=
  match bytes with
  | [] => Some (s, [])
  | c :: rest =>
      match Read (supply s [c]) (repeat 0 n) with
      | Some (s', buf, k, _) =>
          match read_bytewise n s' rest with
          | Some (s'', vs) => Some (s'', take k buf ++ vs)
          | None => None
          end
      | None => None
      end
  end.

(** A single [Read] of all the input into a slice of [n] slots. *)
Definition read_at_once (n : nat) (s : ExpGolombDecoder) (bytes : list Z)
  : option (ExpGolombDecoder * list Z) :=
  match Read (supply s bytes) (repeat 0 n) with
  | Some (s', buf, k, _) => Some (s', take k buf)
  | None => None
  end.

(** The decoder states that can arise: from a new decoder, by the source
    receiving bytes, by a call of [Read], and by the [switch] on any bit. *)
Inductive reachable : ExpGolombDecoder -> Prop :=
| reach_new src : reachable (NewExpGolombDecoder src)
| reach_supply s more : reachable s -> reachable (supply s more)
| reach_bit s bit buf cpos :
    reachable s -> reachable (fst (fst (decodeBit s bit buf cpos)))
| reach_read s buf s' buf' n e :
    reachable s -> Read s buf = Some (s', buf', n, e) -> reachable s'.

(** [decodeBit] without its [READING_SIGN] case. *)
Definition decodeBit_live (s : ExpGolombDecoder) (bit : Z) (buf : list Z)
  (cpos : nat) : ExpGolombDecoder * list Z * nat :=
  if state s =? COUNTING_ZEROS then
    if bit =? 0 then (set_zeros s (i64 (zeros s + 1)), buf, cpos)
    else if zeros s =? 0 then (s, <[cpos := 0]> buf, S cpos)
    else (set_val (set_state s SHIFTING_BITS) 1, buf, cpos)
  else if state s =? SHIFTING_BITS then
    let s := set_val s (i64 (Z.shiftl (val s) 1)) in
    let s := set_val s (Z.lor (val s) bit) in
    let s := set_zeros s (i64 (zeros s - 1)) in
    if zeros s =? 0 then
      let s := set_val s (i64 (val s - 1)) in
      let s := set_state s COUNTING_ZEROS in
      (s, <[cpos := val s]> buf, S cpos)
    else (s, buf, cpos)
  else (s, buf, cpos).

(** The sequences on which the sign bit plays no part: every element equal
    to [start], except that the last may lie above it. *)
Definition flat_then_step (start : Z) (values : list Z) : Prop :=
  values = [] \/
  exists j p, 0 <= p <= 2 ^ 31 - 2 /\ values = repeat start j ++ [start + p].

(** ** Further notions *)

(** The values on which [add] is exact when [uint] has 64 bits: all
    magnitudes up to [2 ^ 63 - 2] but [2 ^ 31 - 1], where [bitLen] is one
    short. *)
Definition in_wide (v : Z) : Prop :=
  Z.abs v <= 2 ^ 63 - 2 /\ Z.abs v <> 2 ^ 31 - 1.

(** What the decoder takes for one codeword: a run of [k] zero bits, a one
    bit and [k] further bits, here the low [k] bits of [x]; and the value
    it emits for it. *)
Definition plain_codeword (c : nat * Z) : list bool :=
  repeat false (fst c) ++ true :: bits_be (fst c) (snd c).

Definition plain_value (c : nat * Z) : Z :=
  2 ^ Z.of_nat (fst c) + snd c mod 2 ^ Z.of_nat (fst c) - 1.

(** What is read back for an encoded value that is not positive. *)
Definition lost_sign (v : Z) : list Z := if v =? 0 then [0] else [- v; 0].

(** The number of bytes handed to the sink so far. *)
Definition sunk (s : ExpGolombEncoder) : nat := length (written (out s)).

(** * Proofs *)

(** ** Bit lists *)

Section BitLists.

Lemma length_bits_be n x : length (bits_be n x) = n.
Proof. induction n; simpl; congruence. Qed.

Lemma bits_be_ext n x y :
  (forall i, 0 <= i < Z.of_nat n -> Z.testbit x i = Z.testbit y i) ->
  bits_be n x = bits_be n y.
Proof.
  induction n as [|n IH]; intros H; simpl; [reflexivity|].
  f_equal; [apply H; lia | apply IH; intros; apply H; lia].
Qed.

Lemma bits_be_app a c x :
  bits_be (a + c) x = bits_be a (Z.shiftr x (Z.of_nat c)) ++ bits_be c x.
Proof.
  induction a as [|a IH]; simpl; [reflexivity|].
  rewrite IH, Z.shiftr_spec by lia.
  do 2 f_equal. lia.
Qed.

Lemma bits_be_mod n x : bits_be n (x mod 2 ^ Z.of_nat n) = bits_be n x.
Proof.
  apply bits_be_ext; intros i Hi.
  apply Z.mod_pow2_bits_low; lia.
Qed.

Lemma bits_be_0 n : bits_be n 0 = repeat false n.
Proof. induction n; simpl; [reflexivity|]. now rewrite Z.testbit_0_l, IHn. Qed.

Lemma bits_be_low_zero n x :
  x mod 2 ^ Z.of_nat n = 0 -> bits_be n x = repeat false n.
Proof. intros H. rewrite <- bits_be_mod, H. apply bits_be_0. Qed.

Lemma bits_be_congr n x y :
  x mod 2 ^ Z.of_nat n = y mod 2 ^ Z.of_nat n -> bits_be n x = bits_be n y.
Proof. intros H. rewrite <- (bits_be_mod n x), H. apply bits_be_mod. Qed.

Lemma bytes_bits_app l1 l2 : bytes_bits (l1 ++ l2) = bytes_bits l1 ++ bytes_bits l2.
Proof. unfold bytes_bits. apply flat_map_app. Qed.

Lemma length_bytes_bits l : length (bytes_bits l) = (8 * length l)%nat.
Proof.
  induction l as [|c l IH]; [reflexivity|].
  change (bytes_bits (c :: l)) with (bits_be 8 c ++ bytes_bits l).
  rewrite length_app, length_bits_be, IH. simpl. lia.
Qed.

Lemma bytes_bits_take k l :
  bytes_bits (take k l) = take (8 * k) (bytes_bits l).
Proof.
  revert l; induction k as [|k IH]; intros l; [reflexivity|].
  destruct l as [|c l]; [reflexivity|].
  change (bytes_bits (c :: l)) with (bits_be 8 c ++ bytes_bits l).
  change (take (S k) (c :: l)) with (c :: take k l).
  change (bytes_bits (c :: take k l)) with (bits_be 8 c ++ bytes_bits (take k l)).
  rewrite IH.
  replace (8 * S k)%nat with (length (bits_be 8 c) + 8 * k)%nat
    by (rewrite length_bits_be; lia).
  now rewrite take_app_add.
Qed.

Lemma byte_bits_of_word v k :
  0 <= k ->
  bits_be 8 (Z.land (Z.shiftr v k) 255) = bits_be 8 (Z.shiftr v k).
Proof.
  intros Hk. apply bits_be_ext; intros i Hi.
  change 255 with (Z.ones 8).
  rewrite Z.land_spec, Z.ones_spec_low by lia.
  apply andb_true_r.
Qed.

Lemma bytes_bits_PutUint64 v : bytes_bits (PutUint64 v) = bits_be 64 v.
Proof.
  unfold PutUint64, bytes_bits, flat_map.
  rewrite !byte_bits_of_word by lia.
  replace (Z.land v 255) with (Z.land (Z.shiftr v 0) 255) by now rewrite Z.shiftr_0_r.
  rewrite byte_bits_of_word by lia.
  rewrite app_nil_r.
  change 64%nat with (8 + (8 + (8 + (8 + (8 + (8 + (8 + 8)))))))%nat.
  rewrite !bits_be_app, Z.shiftr_0_r.
  reflexivity.
Qed.

End BitLists.

(** ** Word arithmetic *)

Section WordArith.

Lemma u64_small z : 0 <= z < 2 ^ 64 -> u64 z = z.
Proof. intros H. unfold u64. apply Z.mod_small; lia. Qed.

Lemma u64_range z : 0 <= u64 z < 2 ^ 64.
Proof. unfold u64. apply Z.mod_pos_bound. lia. Qed.

Lemma i64_small z : - 2 ^ 63 <= z < 2 ^ 63 -> i64 z = z.
Proof. intros H. unfold i64. rewrite Z.mod_small; lia. Qed.

Lemma i64_range z : - 2 ^ 63 <= i64 z < 2 ^ 63.
Proof.
  unfold i64. pose proof (Z.mod_pos_bound (z + 2 ^ 63) (2 ^ 64)). lia.
Qed.

Lemma shl64_spec x k : 0 <= k <= 64 -> shl64 x k = (x * 2 ^ k) mod 2 ^ 64.
Proof.
  intros Hk. unfold shl64, u64.
  destruct (Z.leb_spec 64 k).
  - replace k with 64 by lia. now rewrite Z.mod_mul by lia.
  - now rewrite Z.shiftl_mul_pow2 by lia.
Qed.

Lemma shr64_spec x k : 0 <= k < 64 -> shr64 x k = Z.shiftr x k.
Proof. intros Hk. unfold shr64. destruct (Z.leb_spec 64 k); [lia | reflexivity]. Qed.

Lemma shl64_range x k : 0 <= shl64 x k < 2 ^ 64.
Proof.
  unfold shl64. destruct (64 <=? k); [lia | apply u64_range].
Qed.

Lemma low_bits_zero a n i :
  0 <= i < n -> a mod 2 ^ n = 0 -> Z.testbit a i = false.
Proof.
  intros Hi Ha.
  rewrite <- (Z.mod_pow2_bits_low a n i) by lia.
  rewrite Ha. apply Z.testbit_0_l.
Qed.

Lemma high_bits_zero x n i :
  0 <= x < 2 ^ n -> n <= i -> Z.testbit x i = false.
Proof.
  intros Hx Hi.
  destruct (Z.eq_dec x 0) as [->|Hne]; [apply Z.testbit_0_l|].
  apply Z.bits_above_log2; [lia|].
  assert (0 <= n) by (destruct (Z.le_gt_cases 0 n); [lia|]; rewrite Z.pow_neg_r in Hx; lia).
  assert (Z.log2 x < n) by (apply Z.log2_lt_pow2; lia).
  lia.
Qed.

Lemma lor_disjoint_add a x n :
  0 <= n -> 0 <= x < 2 ^ n -> a mod 2 ^ n = 0 -> Z.lor a x = a + x.
Proof.
  intros Hn Hx Ha.
  assert (Hland : Z.land a x = 0).
  { apply Z.bits_inj'; intros i Hi.
    rewrite Z.land_spec, Z.testbit_0_l.
    destruct (Z.lt_ge_cases i n).
    - rewrite (low_bits_zero a n i) by (lia || assumption). reflexivity.
    - rewrite (high_bits_zero x n i) by (lia || assumption). apply andb_false_r. }
  rewrite <- Z.lxor_lor by assumption.
  symmetry. now apply Z.add_nocarry_lxor.
Qed.

Lemma lor_mod_pow2 a c n :
  0 <= n -> Z.lor a c mod 2 ^ n = Z.lor (a mod 2 ^ n) (c mod 2 ^ n).
Proof.
  intros Hn. rewrite <- !Z.land_ones by lia.
  apply Z.land_lor_distr_l.
Qed.

Lemma lor_range a c n :
  0 <= n -> 0 <= a < 2 ^ n -> 0 <= c < 2 ^ n -> 0 <= Z.lor a c < 2 ^ n.
Proof.
  intros Hn Ha Hc.
  rewrite <- (Z.mod_small a (2 ^ n)), <- (Z.mod_small c (2 ^ n)) by lia.
  rewrite <- lor_mod_pow2 by lia.
  apply Z.mod_pos_bound. lia.
Qed.

Lemma lor_low_zero a c n :
  0 <= n -> a mod 2 ^ n = 0 -> c mod 2 ^ n = 0 -> Z.lor a c mod 2 ^ n = 0.
Proof.
  intros Hn Ha Hc. rewrite lor_mod_pow2, Ha, Hc by lia. reflexivity.
Qed.

Lemma mod_pow2_le a n m :
  0 <= m <= n -> a mod 2 ^ n = 0 -> a mod 2 ^ m = 0.
Proof.
  intros Hm Ha.
  apply Z.mod_divide in Ha; [|lia].
  apply Z.mod_divide; [lia|].
  apply Z.divide_trans with (2 ^ n); [|assumption].
  exists (2 ^ (n - m)). rewrite <- Z.pow_add_r by lia. f_equal. lia.
Qed.

Lemma shl_mod_low x k n :
  0 <= n <= k -> (x * 2 ^ k) mod 2 ^ 64 mod 2 ^ n = 0.
Proof.
  intros Hk.
  destruct (Z.le_gt_cases k 64).
  - apply mod_pow2_le with k; [lia|].
    replace (2 ^ 64) with (2 ^ (64 - k) * 2 ^ k)
      by (rewrite <- Z.pow_add_r by lia; f_equal; lia).
    rewrite Z.mul_mod_distr_r by lia.
    apply Z.mod_mul. lia.
  - replace (x * 2 ^ k) with (x * 2 ^ (k - 64) * 2 ^ 64).
    + rewrite Z.mod_mul by lia. apply Z.mod_0_l. lia.
    + rewrite <- Z.mul_assoc, <- Z.pow_add_r by lia. do 2 f_equal. lia.
Qed.

Lemma shiftr_add_low q n y :
  0 <= n -> 0 <= y < 2 ^ n -> Z.shiftr (q * 2 ^ n + y) n = q.
Proof.
  intros Hn Hy. rewrite Z.shiftr_div_pow2, Z.div_add_l, Z.div_small by lia. lia.
Qed.

Lemma mod_add_low q n y :
  0 <= n -> (q * 2 ^ n + y) mod 2 ^ n = y mod 2 ^ n.
Proof. intros Hn. rewrite Z.add_comm. apply Z.mod_add. lia. Qed.

Lemma low_zero_factor a n :
  0 <= n -> a mod 2 ^ n = 0 -> a = (a / 2 ^ n) * 2 ^ n.
Proof.
  intros Hn Ha. pose proof (Z.div_mod a (2 ^ n)). lia.
Qed.

End WordArith.

(** ** The encoder as a bit stream *)

Section EncoderStream.

Lemma written_Write w p : written (bw_Write w p) = written w ++ p.
Proof. unfold written, bw_Write. simpl. now rewrite app_assoc. Qed.

Lemma written_Flush w : written (bw_Flush w) = written w.
Proof. unfold written, bw_Flush. simpl. now rewrite app_nil_r. Qed.

Lemma enc_inv_new w : enc_inv (NewExpGolombEncoder w).
Proof.
  unfold enc_inv, NewExpGolombEncoder, egWordBits. cbn [data bitsleft].
  split; [lia|]. split; [lia|]. apply Z.mod_0_l. lia.
Qed.

Lemma stream_new w : stream (NewExpGolombEncoder w) = bytes_bits (written w).
Proof. unfold stream, pending. simpl. apply app_nil_r. Qed.

(** The whole word, read as bits: the pending ones, then zeros. *)
Lemma word_bits s :
  enc_inv s ->
  bits_be 64 (data s) = pending s ++ repeat false (Z.to_nat (bitsleft s)).
Proof.
  intros (Hbl & Hd & Hlow). unfold pending, egWordBits in *.
  replace 64%nat with (Z.to_nat (64 - bitsleft s) + Z.to_nat (bitsleft s))%nat by lia.
  rewrite bits_be_app, Z2Nat.id by lia.
  f_equal. apply bits_be_low_zero. now rewrite Z2Nat.id by lia.
Qed.

Lemma enc_inv_emitBits s : enc_inv (emitBits s).
Proof.
  unfold enc_inv, emitBits, egWordBits. cbn [data bitsleft].
  split; [lia|]. split; [lia|]. apply Z.mod_0_l. lia.
Qed.

Lemma stream_emitBits s :
  enc_inv s ->
  stream (emitBits s) = stream s ++ repeat false (Z.to_nat (bitsleft s)).
Proof.
  intros Hs. unfold stream at 1, emitBits, pending. cbn [out data bitsleft].
  rewrite written_Write, bytes_bits_app, bytes_bits_PutUint64, word_bits by assumption.
  unfold egWordBits. simpl. unfold stream.
  now rewrite app_nil_r, app_assoc.
Qed.

Lemma addBits_inv s bits nbits :
  enc_inv s -> 0 <= nbits <= 64 -> enc_inv (addBits s bits nbits).
Proof.
  intros (Hbl & Hd & Hlow) Hn. unfold egWordBits in *.
  unfold addBits, enc_inv, egWordBits.
  destruct (Z.ltb_spec nbits (bitsleft s)); cbn [data bitsleft out outbuf emitBits].
  - rewrite u64_small by lia.
    split; [lia|]. split.
    + apply lor_range; [lia | assumption | apply shl64_range].
    + apply lor_low_zero; [lia | apply mod_pow2_le with (bitsleft s); [lia | assumption] |].
      rewrite shl64_spec by lia. apply shl_mod_low. lia.
  - rewrite (u64_small (nbits - bitsleft s)) by lia.
    rewrite u64_small by lia.
    split; [lia|]. split; [apply shl64_range|].
    rewrite shl64_spec by lia. apply shl_mod_low. lia.
Qed.

Lemma addBits_stream s bits nbits :
  enc_inv s -> 0 <= nbits <= 64 -> 0 <= bits < 2 ^ nbits ->
  stream (addBits s bits nbits) = stream s ++ bits_be (Z.to_nat nbits) bits.
Proof.
  intros Hs Hn Hb. pose proof Hs as (Hbl & Hd & Hlow). unfold egWordBits in *.
  pose proof (low_zero_factor (data s) (bitsleft s) ltac:(lia) Hlow) as Hq.
  set (q := data s / 2 ^ bitsleft s) in Hq.
  unfold addBits.
  destruct (Z.ltb_spec nbits (bitsleft s)).
  - (* the bits fit *)
    unfold stream, pending, egWordBits. cbn [data bitsleft out outbuf].
    rewrite u64_small by lia.
    rewrite <- app_assoc. f_equal.
    set (k := bitsleft s - nbits).
    assert (Hx : shl64 bits k = bits * 2 ^ k).
    { rewrite shl64_spec by lia. apply Z.mod_small.
      split; [lia|].
      apply Z.lt_le_trans with (2 ^ nbits * 2 ^ k); [nia|].
      rewrite <- Z.pow_add_r by lia. apply Z.pow_le_mono_r; lia. }
    rewrite Hx.
    assert (Hlt : 0 <= bits * 2 ^ k < 2 ^ bitsleft s).
    { split; [lia|].
      replace (bitsleft s) with (nbits + k) by lia.
      rewrite Z.pow_add_r by lia. nia. }
    rewrite (lor_disjoint_add (data s) (bits * 2 ^ k) (bitsleft s)) by (lia || assumption).
    replace (Z.to_nat (64 - k)) with (Z.to_nat (64 - bitsleft s) + Z.to_nat nbits)%nat by lia.
    rewrite bits_be_app, Z2Nat.id by lia.
    assert (Hsh : Z.shiftr (data s + bits * 2 ^ k) k = q * 2 ^ nbits + bits).
    { rewrite Z.shiftr_div_pow2, Hq by lia.
      replace (bitsleft s) with (nbits + k) by lia.
      rewrite Z.pow_add_r by lia.
      replace (q * (2 ^ nbits * 2 ^ k) + bits * 2 ^ k)
        with ((q * 2 ^ nbits + bits) * 2 ^ k) by ring.
      apply Z.div_mul. lia. }
    rewrite Hsh. f_equal.
    + f_equal. rewrite shiftr_add_low by lia.
      rewrite Z.shiftr_div_pow2 by lia. reflexivity.
    + apply bits_be_congr. rewrite Z2Nat.id by lia.
      apply mod_add_low. lia.
  - (* the bits fill the word and the rest starts a new one *)
    set (j := nbits - bitsleft s).
    assert (Hj : 0 <= j <= 63) by (subst j; lia).
    rewrite (u64_small j) by lia.
    rewrite (u64_small (egWordBits - j)) by (unfold egWordBits; lia).
    assert (Hy : 0 <= Z.shiftr bits j < 2 ^ bitsleft s).
    { rewrite Z.shiftr_div_pow2 by lia. split.
      - apply Z.div_pos; lia.
      - apply Z.div_lt_upper_bound; [lia|].
        rewrite <- Z.pow_add_r by lia.
        replace (j + bitsleft s) with nbits by (subst j; lia). lia. }
    rewrite shr64_spec by lia.
    rewrite (lor_disjoint_add (data s) (Z.shiftr bits j) (bitsleft s)) by (lia || assumption).
    unfold stream at 1, pending, emitBits, egWordBits. cbn [data bitsleft out outbuf].
    rewrite written_Write, bytes_bits_app, bytes_bits_PutUint64.
    unfold stream. rewrite <- !app_assoc. f_equal.
    replace 64%nat with (Z.to_nat (64 - bitsleft s) + Z.to_nat (bitsleft s))%nat at 1 by lia.
    rewrite bits_be_app, Z2Nat.id by lia.
    rewrite <- app_assoc. f_equal.
    + unfold pending, egWordBits. f_equal.
      rewrite Hq at 1. rewrite shiftr_add_low by lia.
      rewrite Z.shiftr_div_pow2 by lia. reflexivity.
    + replace (Z.to_nat nbits) with (Z.to_nat (bitsleft s) + Z.to_nat j)%nat by (subst j; lia).
      rewrite bits_be_app, Z2Nat.id by lia.
      f_equal.
      * apply bits_be_congr. rewrite Z2Nat.id by lia.
        rewrite Hq. apply mod_add_low. lia.
      * replace (64 - (64 - j)) with j by lia.
        apply bits_be_congr. rewrite Z2Nat.id by lia.
        rewrite shl64_spec by lia.
        rewrite Z.shiftr_div_pow2 by lia.
        replace (2 ^ 64) with (2 ^ j * 2 ^ (64 - j))
          by (rewrite <- Z.pow_add_r by lia; f_equal; lia).
        rewrite Z.mul_mod_distr_r by lia.
        rewrite Z.div_mul by lia.
        apply Z.mod_mod. lia.
Qed.

Lemma repeat_false_add (n m : Z) :
  0 <= n -> 0 <= m ->
  repeat false (Z.to_nat n) ++ repeat false (Z.to_nat m)
  = repeat false (Z.to_nat (n + m)).
Proof. intros Hn Hm. rewrite <- repeat_app. f_equal. lia. Qed.

Lemma zeroWords_spec fuel : forall s nz,
  0 <= nz < 2 ^ 64 -> nz / 64 <= Z.of_nat fuel ->
  data s = 0 -> bitsleft s = 64 ->
  exists s', zeroWords fuel s nz = (s', nz mod 64) /\
    data s' = 0 /\ bitsleft s' = 64 /\
    bytes_bits (written (out s'))
    = bytes_bits (written (out s)) ++ repeat false (Z.to_nat (nz - nz mod 64)).
Proof.
  induction fuel as [|fuel IH]; intros s nz Hnz Hfuel Hd Hbl.
  - exists s. simpl.
    assert (nz mod 64 = nz) by (apply Z.mod_small; Z.div_mod_to_equations; lia).
    replace (nz - nz mod 64) with 0 by lia.
    simpl. rewrite app_nil_r. repeat split; try assumption. congruence.
  - simpl. unfold egWordBits. destruct (Z.leb_spec 64 nz).
    + rewrite u64_small by lia.
      destruct (IH (emitBits s) (nz - 64)) as (s' & Hz & Hd' & Hbl' & Hw).
      * lia.
      * Z.div_mod_to_equations; lia.
      * reflexivity.
      * reflexivity.
      * exists s'.
        assert (Hm : (nz - 64) mod 64 = nz mod 64).
        { replace (nz - 64) with (nz + (-1) * 64) by lia. apply Z.mod_add. lia. }
        rewrite Hm in *.
        repeat split; try assumption.
        rewrite Hw. unfold emitBits. cbn [out].
        rewrite written_Write, bytes_bits_app, bytes_bits_PutUint64, Hd, bits_be_0.
        rewrite <- app_assoc. f_equal.
        change 64%nat with (Z.to_nat 64).
        rewrite repeat_false_add by (Z.div_mod_to_equations; lia).
        do 2 f_equal. lia.
    + exists s.
      assert (nz mod 64 = nz) by (apply Z.mod_small; lia).
      replace (nz - nz mod 64) with 0 by lia.
      simpl. rewrite app_nil_r. repeat split; try assumption. congruence.
Qed.

Lemma addZeroBits_spec s nzeros :
  enc_inv s -> 0 <= nzeros < 2 ^ 64 ->
  enc_inv (addZeroBits s nzeros) /\
  stream (addZeroBits s nzeros) = stream s ++ repeat false (Z.to_nat nzeros).
Proof.
  intros Hs Hn. pose proof Hs as (Hbl & Hd & Hlow). unfold egWordBits in *.
  pose proof (low_zero_factor (data s) (bitsleft s) ltac:(lia) Hlow) as Hq.
  set (q := data s / 2 ^ bitsleft s) in Hq.
  unfold addZeroBits.
  destruct (Z.ltb_spec nzeros (bitsleft s)).
  - rewrite u64_small by lia. split.
    + unfold enc_inv, egWordBits. cbn [data bitsleft].
      split; [lia|]. split; [lia|].
      apply mod_pow2_le with (bitsleft s); [lia | assumption].
    + unfold stream, pending, egWordBits. cbn [data bitsleft out].
      rewrite <- app_assoc. f_equal.
      replace (Z.to_nat (64 - (bitsleft s - nzeros)))
        with (Z.to_nat (64 - bitsleft s) + Z.to_nat nzeros)%nat by lia.
      rewrite bits_be_app, Z2Nat.id, Z.shiftr_shiftr by lia.
      replace (bitsleft s - nzeros + nzeros) with (bitsleft s) by lia.
      f_equal. apply bits_be_low_zero. rewrite Z2Nat.id by lia.
      rewrite Z.shiftr_div_pow2, Hq by lia.
      replace (bitsleft s) with (nzeros + (bitsleft s - nzeros)) at 1 by lia.
      rewrite Z.pow_add_r, Z.mul_assoc, Z.div_mul by lia.
      apply Z.mod_mul. lia.
  - rewrite (u64_small (nzeros - bitsleft s)) by lia.
    set (nz := nzeros - bitsleft s).
    destruct (zeroWords_spec (Z.to_nat (nz / egWordBits)) (emitBits s) nz)
      as (s' & Hz & Hd' & Hbl' & Hw).
    + subst nz; lia.
    + unfold egWordBits. rewrite Z2Nat.id; [lia|]. apply Z.div_pos; subst nz; lia.
    + reflexivity.
    + reflexivity.
    + rewrite Hz.
      assert (Hm : 0 <= nz mod 64 < 64) by (apply Z.mod_pos_bound; lia).
      rewrite u64_small by lia. split.
      * unfold enc_inv, egWordBits. cbn [data bitsleft]. rewrite Hd', Hbl'.
        split; [lia|]. split; [lia|]. apply Z.mod_0_l. lia.
      * unfold stream at 1, pending, egWordBits. cbn [data bitsleft out].
        rewrite Hw, Hd', Hbl', Z.shiftr_0_l, bits_be_0.
        replace (64 - (64 - nz mod 64)) with (nz mod 64) by lia.
        fold (stream (emitBits s)).
        unfold emitBits at 1. cbn [out].
        rewrite written_Write, bytes_bits_app, bytes_bits_PutUint64, word_bits by assumption.
        unfold stream. rewrite <- !app_assoc. do 2 f_equal.
        assert (nz mod 64 <= nz) by (apply Z.mod_le; subst nz; lia).
        rewrite !repeat_false_add by (subst nz; lia).
        f_equal. subst nz. lia.
Qed.

End EncoderStream.

(** ** [bitLen] *)

Section BitLen.

Ltac split_if :=
  match goal with
  | |- context [if ?a <? ?c then _ else _] => destruct (Z.ltb_spec a c)
  | |- context [if ?a <=? ?c then _ else _] => destruct (Z.leb_spec a c)
  end.

Lemma bitLen_bounds x : 1 <= x -> 1 <= bitLen x <= 63.
Proof.
  intros Hx. unfold bitLen. repeat split_if; lia.
Qed.

(** Below [2 ^ 31] the result is the length of the binary numeral. *)
Lemma bitLen_log2 x : 1 <= x < 2 ^ 31 -> bitLen x = Z.log2 x + 1.
Proof.
  intros Hx. unfold bitLen.
  destruct (Z.ltb_spec (2 ^ 31) x); [lia|].
  repeat split_if;
    rewrite ?Z.shiftr_shiftr in * by lia;
    rewrite ?Z.shiftr_div_pow2 in * by lia;
    match goal with
    | |- ?n = _ =>
        let a := eval compute in (n - 1) in
        rewrite (Z.log2_unique x a);
        [ reflexivity | lia | try (Z.div_mod_to_equations; lia) ]
    end.
Qed.

End BitLen.

(** ** [add] appends the codeword of the format *)

Section Codeword.

Lemma spec_nbits_range v :
  v <> 0 -> in_range v ->
  1 <= spec_nbits v <= 30 /\
  2 ^ spec_nbits v <= Z.abs v + 1 < 2 ^ (spec_nbits v + 1).
Proof.
  unfold in_range, spec_nbits, bitlength. intros Hv Hr.
  replace (Z.log2 (Z.abs v + 1) + 1 - 1) with (Z.log2 (Z.abs v + 1)) by lia.
  pose proof (Z.log2_spec (Z.abs v + 1) ltac:(lia)) as Hs.
  replace (Z.succ (Z.log2 (Z.abs v + 1))) with (Z.log2 (Z.abs v + 1) + 1) in Hs by lia.
  split; [|exact Hs].
  split.
  - assert (Z.log2 2 <= Z.log2 (Z.abs v + 1)) by (apply Z.log2_le_mono; lia).
    change (Z.log2 2) with 1 in *. lia.
  - assert (Z.log2 (Z.abs v + 1) < 31) by (apply Z.log2_lt_pow2; lia). lia.
Qed.

Lemma add_general_spec s v :
  enc_inv s -> v <> 0 -> in_range v ->
  enc_inv (add_general s v) /\
  stream (add_general s v) = stream s ++ spec_codeword v.
Proof.
  intros Hs Hv Hr.
  destruct (spec_nbits_range v Hv Hr) as (Hn & Hm).
  unfold in_range in Hr.
  unfold add_general.
  assert (Habs : (if v <? 0 then i64 (- v) else v) = Z.abs v).
  { destruct (Z.ltb_spec v 0); [rewrite i64_small|]; lia. }
  assert (Hsign : (if v <? 0 then 1 else 0) = spec_sign v).
  { unfold spec_sign. destruct (Z.ltb_spec v 0), (Z.ltb_spec 0 v); lia. }
  rewrite Habs, Hsign.
  rewrite (u64_small (Z.abs v)) by lia.
  rewrite (u64_small (Z.abs v + 1)) by lia.
  rewrite bitLen_log2 by lia.
  fold (bitlength (Z.abs v + 1)).
  rewrite (u64_small (bitlength _)) by (unfold spec_nbits in Hn; lia).
  fold (spec_nbits v).
  rewrite (u64_small (spec_nbits v)) by lia.
  rewrite (u64_small (spec_nbits v + 2)) by lia.
  destruct (addZeroBits_spec s (spec_nbits v) Hs ltac:(lia)) as (Hz & Hzs).
  assert (Hshl : shl64 (Z.abs v + 1) 1 = Z.shiftl (Z.abs v + 1) 1).
  { unfold shl64. simpl (64 <=? 1). cbv iota.
    apply u64_small. rewrite Z.shiftl_mul_pow2 by lia. lia. }
  rewrite Hshl.
  assert (Hb : 0 <= Z.lor (Z.shiftl (Z.abs v + 1) 1) (spec_sign v)
               < 2 ^ (spec_nbits v + 2)).
  { apply lor_range; [lia | |].
    - rewrite Z.shiftl_mul_pow2 by lia.
      replace (spec_nbits v + 2) with (spec_nbits v + 1 + 1) by lia.
      rewrite (Z.pow_add_r 2 (spec_nbits v + 1) 1) by lia. lia.
    - assert (2 ^ 2 <= 2 ^ (spec_nbits v + 2)) by (apply Z.pow_le_mono_r; lia).
      unfold spec_sign. destruct (0 <? v); lia. }
  split.
  - apply addBits_inv; [assumption | lia].
  - rewrite addBits_stream by (assumption || lia).
    rewrite Hzs, <- app_assoc.
    unfold spec_codeword. destruct (Z.eqb_spec v 0); [contradiction|]. reflexivity.
Qed.

(** [add] appends the codeword of its argument. *)
Lemma add_spec s v :
  enc_inv s -> in_range v ->
  enc_inv (add s v) /\ stream (add s v) = stream s ++ spec_codeword v.
Proof.
  intros Hs Hr. unfold add.
  destruct (Z.eqb_spec v 0) as [->|H0].
  { split; [apply addBits_inv; [assumption|lia] |].
    rewrite addBits_stream by (assumption || lia). reflexivity. }
  destruct (Z.eqb_spec v 1) as [->|H1].
  { split; [apply addBits_inv; [assumption|lia] |].
    rewrite addBits_stream by (assumption || lia). reflexivity. }
  destruct (Z.eqb_spec v (-1)) as [->|H2].
  { split; [apply addBits_inv; [assumption|lia] |].
    rewrite addBits_stream by (assumption || lia). reflexivity. }
  destruct (Z.eqb_spec v 2) as [->|H3].
  { split; [apply addBits_inv; [assumption|lia] |].
    rewrite addBits_stream by (assumption || lia). reflexivity. }
  destruct (Z.eqb_spec v (-2)) as [->|H4].
  { split; [apply addBits_inv; [assumption|lia] |].
    rewrite addBits_stream by (assumption || lia). reflexivity. }
  now apply add_general_spec.
Qed.

Lemma uitem_range v :
  is_int v ->
  1 <= u64 (u64 (if v <? 0 then i64 (- v) else v) + 1) < 2 ^ 64.
Proof.
  unfold is_int. intros Hv.
  split; [|apply u64_range].
  destruct (Z.ltb_spec v 0).
  - destruct (Z.eq_dec v (- 2 ^ 63)) as [->|Hne]; [vm_compute; discriminate|].
    rewrite i64_small, (u64_small (- v)), u64_small by lia. lia.
  - rewrite (u64_small v), u64_small by lia. lia.
Qed.

(** [add] keeps the invariant on every [int], in range or not. *)
Lemma add_inv s v : enc_inv s -> is_int v -> enc_inv (add s v).
Proof.
  intros Hs Hv. unfold add.
  repeat match goal with
  | |- context [if ?a =? ?c then _ else _] =>
      destruct (Z.eqb_spec a c); [apply addBits_inv; [assumption|lia] |]
  end.
  unfold add_general.
  pose proof (uitem_range v Hv) as Hu.
  pose proof (bitLen_bounds _ (proj1 Hu)) as Hb.
  rewrite (u64_small (bitLen _)) by lia.
  rewrite (u64_small (bitLen _ - 1)) by lia.
  rewrite (u64_small (bitLen _ - 1 + 2)) by lia.
  apply addBits_inv; [|lia].
  apply addZeroBits_spec; [assumption | lia].
Qed.

Lemma Write_inv l : forall s, enc_inv s -> Forall is_int l -> enc_inv (Write s l).
Proof.
  induction l as [|v l IH]; intros s Hs Hl; [assumption|].
  inversion Hl; subst. apply IH; [now apply add_inv | assumption].
Qed.

Lemma Write_spec l : forall s,
  enc_inv s -> Forall in_range l ->
  enc_inv (Write s l) /\
  stream (Write s l) = stream s ++ flat_map spec_codeword l.
Proof.
  induction l as [|v l IH]; intros s Hs Hl.
  - simpl. now rewrite app_nil_r.
  - inversion Hl; subst.
    destruct (add_spec s v Hs) as (Hi & Hst); [assumption|].
    destruct (IH (add s v) Hi) as (Hi' & Hst'); [assumption|].
    split; [exact Hi'|].
    change (Write s (v :: l)) with (Write (add s v) l).
    rewrite Hst', Hst, <- app_assoc. reflexivity.
Qed.

End Codeword.

(** ** [Close] and [DeltaEncode] *)

Section Closing.

Lemma take_repeat_false n m :
  (n <= m)%nat -> take n (repeat false m) = repeat false n.
Proof.
  revert m; induction n as [|n IH]; intros m Hnm; [reflexivity|].
  destruct m as [|m]; [lia|]. simpl. f_equal. apply IH. lia.
Qed.

Lemma enc_inv_full s : enc_inv s -> bitsleft s = 64 -> data s = 0.
Proof.
  intros (Hbl & Hd & Hlow) H. unfold egWordBits in *. rewrite H in Hlow.
  rewrite Z.mod_small in Hlow; lia.
Qed.

(** What [Close] does: the pending bits go out in
    [(pending + 7) / 8] bytes, padded with zero bits, and the sink is
    flushed. *)
Lemma Close_spec s :
  enc_inv s ->
  let npend := egWordBits - bitsleft s in
  let nbytes := (npend + 7) / 8 in
  exists s',
    Close s = Some s' /\
    data s' = 0 /\ bitsleft s' = egWordBits /\
    buffered (out s') = [] /\
    flushed (out s')
    = written (out s) ++ take (Z.to_nat nbytes) (PutUint64 (data s)) /\
    length (take (Z.to_nat nbytes) (PutUint64 (data s))) = Z.to_nat nbytes /\
    bytes_bits (take (Z.to_nat nbytes) (PutUint64 (data s)))
    = pending s ++ repeat false (Z.to_nat (8 * nbytes - npend)).
Proof.
  intros Hs npend nbytes. pose proof Hs as (Hbl & Hd & Hlow).
  unfold egWordBits in *. unfold Close, egWordBits.
  destruct (Z.eqb_spec (bitsleft s) 64) as [Hfull|Hpart].
  - exists (mkEncoder (data s) (bitsleft s) (bw_Flush (out s)) (outbuf s)).
    assert (Hnb : nbytes = 0) by (subst nbytes npend; rewrite Hfull; reflexivity).
    cbn [data bitsleft out bw_Flush buffered flushed].
    rewrite Hnb. unfold pending, egWordBits. rewrite Hfull.
    repeat split; try reflexivity.
    + now apply enc_inv_full.
    + simpl. unfold written. now rewrite app_nil_r.
    + subst npend. rewrite Hfull. reflexivity.
  - assert (Hnp : 1 <= npend <= 63) by (subst npend; lia).
    assert (Hnb : 1 <= nbytes <= 8 /\ npend <= 8 * nbytes <= npend + 7).
    { subst nbytes. Z.div_mod_to_equations; lia. }
    unfold emitPartialBits, egWordBits.
    fold npend. rewrite (u64_small npend), (u64_small (npend + 7)) by lia.
    fold nbytes.
    destruct (Z.ltb_spec 8 nbytes); [lia|].
    destruct (Z.ltb_spec 0 nbytes); [|lia].
    eexists. split; [reflexivity|].
    cbn [data bitsleft out bw_Flush bw_Write buffered flushed].
    repeat split; try reflexivity.
    + unfold written. now rewrite app_assoc.
    + rewrite length_take. unfold PutUint64. simpl length. lia.
    + rewrite bytes_bits_take, bytes_bits_PutUint64, word_bits by assumption.
      assert (Hlen : length (pending s) = Z.to_nat npend).
      { unfold pending, egWordBits. now rewrite length_bits_be. }
      rewrite take_app_ge by lia.
      f_equal. rewrite Hlen, take_repeat_false by lia.
      f_equal. lia.
Qed.

Lemma DeltaEncode_Write values : forall egs start,
  fst (fold_left (fun '(egs, prev) i =>
                    let delta := i64 (i - prev) in (Write egs [delta], i))
                 values (egs, start))
  = Write egs (deltas start values).
Proof.
  induction values as [|i rest IH]; intros egs start; [reflexivity|].
  simpl fold_left. rewrite IH. reflexivity.
Qed.

Lemma deltas_int values : forall prev, Forall is_int (deltas prev values).
Proof.
  induction values as [|i rest IH]; intros prev; simpl; constructor.
  - apply i64_range.
  - apply IH.
Qed.

(** [DeltaEncode] never panics, and on residuals in range its bytes are
    the codewords of the residuals followed by fewer than eight zero bits. *)
Lemma DeltaEncode_total start values :
  exists bytes, DeltaEncode start values = Some bytes.
Proof.
  unfold DeltaEncode.
  pose proof (DeltaEncode_Write values
                (NewExpGolombEncoder (mkWriter [] [])) start) as Hw.
  destruct (fold_left _ values _) as [egs prev]. simpl in Hw. subst egs.
  destruct (Close_spec (Write (NewExpGolombEncoder (mkWriter [] []))
                              (deltas start values))) as (s' & Hc & _).
  { apply Write_inv; [apply enc_inv_new | apply deltas_int]. }
  rewrite Hc. eauto.
Qed.

Lemma DeltaEncode_bits start values :
  Forall in_range (deltas start values) ->
  exists bytes pad,
    DeltaEncode start values = Some bytes /\
    bytes_bits bytes
    = flat_map spec_codeword (deltas start values) ++ repeat false pad.
Proof.
  intros Hr. unfold DeltaEncode.
  pose proof (DeltaEncode_Write values
                (NewExpGolombEncoder (mkWriter [] [])) start) as Hw.
  destruct (fold_left _ values _) as [egs prev]. simpl in Hw. subst egs.
  set (e0 := NewExpGolombEncoder (mkWriter [] [])).
  destruct (Write_spec (deltas start values) e0 (enc_inv_new _) Hr) as (Hi & Hst).
  destruct (Close_spec _ Hi) as (s' & Hc & _ & _ & _ & Hfl & _ & Hbits).
  rewrite Hc. eexists. eexists. split; [reflexivity|].
  rewrite Hfl, bytes_bits_app, Hbits, app_assoc.
  fold (stream (Write e0 (deltas start values))).
  rewrite Hst. subst e0. rewrite stream_new. reflexivity.
Qed.

End Closing.

(** ** The decoder as a machine over bits *)

Section DecoderBits.

Lemma decodeBit_parse s bit buf cpos :
  decodeBit s (Z.b2z bit) buf cpos
  = let '(p, e) := parseBit (pst s) bit in
    (with_pst s p,
     match e with Some v => <[cpos := v]> buf | None => buf end,
     match e with Some _ => S cpos | None => cpos end).
Proof.
  unfold parseBit, decodeBit, pst, with_pst.
  destruct s as [sr sb sst sv sz sn].
  unfold set_val, set_zeros, set_state.
  cbn [state val zeros r b nBits p_state p_val p_zeros].
  destruct (sst =? COUNTING_ZEROS).
  { destruct (Z.b2z bit =? 0); [reflexivity|].
    destruct (sz =? 0); reflexivity. }
  destruct (sst =? SHIFTING_BITS).
  { destruct (i64 (sz - 1) =? 0); reflexivity. }
  destruct (sst =? READING_SIGN).
  { destruct (Z.b2z bit =? 1); reflexivity. }
  reflexivity.
Qed.

Lemma bit_of_byte c k :
  0 <= k -> Z.land (Z.shiftr c k) 1 = Z.b2z (Z.testbit c k).
Proof.
  intros Hk. change 1 with (Z.ones 1).
  rewrite Z.land_ones by lia. change (2 ^ 1) with 2.
  rewrite <- Z.bit0_mod, Z.shiftr_spec by lia. reflexivity.
Qed.

Lemma consume_app l1 : forall room p l2 vs1 q1 rem1,
  consume room p l1 = (vs1, q1, rem1) ->
  consume room p (l1 ++ l2)
  = match rem1 with
    | [] => let '(vs2, q2, rem2) := consume (room - length vs1) q1 l2 in
            (vs1 ++ vs2, q2, rem2)
    | _ => (vs1, q1, rem1 ++ l2)
    end.
Proof.
  induction l1 as [|bit rest IH]; intros room p l2 vs1 q1 rem1 H.
  - simpl in H. injection H as <- <- <-. simpl. rewrite Nat.sub_0_r.
    destruct (consume room p l2) as [[vs2 q2] rem2]. reflexivity.
  - destruct room as [|room'].
    + simpl in H. injection H as <- <- <-. reflexivity.
    + simpl in H |- *. destruct (parseBit p bit) as [p' [v|]].
      * destruct (consume room' p' rest) as [[vs q] rm] eqn:Hc.
        injection H as <- <- <-.
        rewrite (IH _ _ l2 _ _ _ Hc).
        destruct rm; [|reflexivity].
        simpl length. simpl Nat.sub.
        destruct (consume (room' - length vs) q l2) as [[vs2 q2] rem2]. reflexivity.
      * apply (IH _ _ l2) in H. exact H.
Qed.

Lemma consume_length l : forall room p vs q rem,
  consume room p l = (vs, q, rem) ->
  (length vs <= room)%nat /\ (length rem <= length l)%nat /\
  (rem <> [] -> length vs = room) /\
  (rem <> [] -> (0 < room)%nat -> (length rem < length l)%nat).
Proof.
  induction l as [|bit rest IH]; intros room p vs q rem H.
  - simpl in H. injection H as <- <- <-. simpl. repeat split; try lia; congruence.
  - destruct room as [|room'].
    + simpl in H. injection H as <- <- <-. simpl. repeat split; lia.
    + simpl in H. destruct (parseBit p bit) as [p' [v|]].
      * destruct (consume room' p' rest) as [[vs' q'] rm] eqn:Hc.
        injection H as <- <- <-.
        destruct (IH _ _ _ _ _ Hc) as (H1 & H2 & H3 & H4).
        simpl. split; [lia|]. split; [lia|]. split; [|lia].
        intros Hne. rewrite H3 by assumption. reflexivity.
      * destruct (IH _ _ _ _ _ H) as (H1 & H2 & H3 & H4).
        simpl. split; [lia|]. split; [lia|]. split; [assumption|].
        intros Hne _. specialize (H4 Hne ltac:(lia)). lia.
Qed.

(** What [consume] leaves, [run] picks up. *)
Lemma consume_run l : forall room p vs q rem,
  consume room p l = (vs, q, rem) ->
  run p l = (vs ++ fst (run q rem), snd (run q rem)).
Proof.
  induction l as [|bit rest IH]; intros room p vs q rem H.
  - simpl in H. injection H as <- <- <-. reflexivity.
  - destruct room as [|room'].
    + simpl in H. injection H as <- <- <-. apply surjective_pairing.
    + simpl in H |- *. destruct (parseBit p bit) as [p' [v|]].
      * destruct (consume room' p' rest) as [[vs' q'] rm] eqn:Hc.
        injection H as <- <- <-.
        rewrite (IH _ _ _ _ _ Hc). reflexivity.
      * rewrite (IH _ _ _ _ _ H). reflexivity.
Qed.

Lemma run_app l1 : forall p l2,
  run p (l1 ++ l2)
  = (fst (run p l1) ++ fst (run (snd (run p l1)) l2),
     snd (run (snd (run p l1)) l2)).
Proof.
  induction l1 as [|bit rest IH]; intros p l2.
  - simpl. destruct (run p l2). reflexivity.
  - simpl. destruct (parseBit p bit) as [p' e].
    rewrite IH. destruct (run p' rest) as [vs q]. simpl.
    destruct e; reflexivity.
Qed.

Lemma run_length l : forall p, (length (fst (run p l)) <= length l)%nat.
Proof.
  induction l as [|bit rest IH]; intros p; simpl; [lia|].
  destruct (parseBit p bit) as [p' e]. specialize (IH p').
  destruct (run p' rest) as [vs q]. simpl in *. destruct e; simpl; lia.
Qed.

(** With room for every bit, [consume] is [run]. *)
Lemma consume_all l : forall room p,
  (length l <= room)%nat ->
  consume room p l = (fst (run p l), snd (run p l), []).
Proof.
  induction l as [|bit rest IH]; intros room p Hr; [reflexivity|].
  simpl in Hr. destruct room as [|room']; [lia|].
  simpl. destruct (parseBit p bit) as [p' [v|]].
  - rewrite IH by lia. destruct (run p' rest). reflexivity.
  - rewrite IH by lia. destruct (run p' rest). reflexivity.
Qed.

Lemma store_app vs1 : forall buf cpos vs2,
  store buf cpos (vs1 ++ vs2) = store (store buf cpos vs1) (cpos + length vs1) vs2.
Proof.
  induction vs1 as [|v vs1 IH]; intros buf cpos vs2; simpl.
  - now rewrite Nat.add_0_r.
  - rewrite IH. f_equal. lia.
Qed.

Lemma length_store vs : forall buf cpos, length (store buf cpos vs) = length buf.
Proof.
  induction vs as [|v vs IH]; intros buf cpos; simpl; [reflexivity|].
  now rewrite IH, length_insert.
Qed.

Lemma take_store vs : forall (buf : list Z) cpos,
  (cpos + length vs <= length buf)%nat ->
  take (cpos + length vs) (store buf cpos vs) = take cpos buf ++ vs.
Proof.
  induction vs as [|v vs IH]; intros buf cpos Hl; simpl in *.
  - now rewrite Nat.add_0_r, app_nil_r.
  - replace (cpos + S (length vs))%nat with (S cpos + length vs)%nat by lia.
    rewrite IH by (rewrite length_insert; lia).
    rewrite (take_S_r _ _ v) by (apply list_lookup_insert_eq; lia).
    rewrite take_insert_ge by lia.
    now rewrite <- app_assoc.
Qed.

Lemma pst_with_pst s p : pst (with_pst s p) = p.
Proof. destruct p; reflexivity. Qed.

Lemma pst_after s q n : pst (set_nBits (with_pst s q) n) = q.
Proof. destruct q; reflexivity. Qed.

Lemma avail_after s q :
  avail (set_nBits (with_pst s q) (Z.of_nat 0)) = bytes_bits (r s).
Proof. reflexivity. Qed.

(** The result of [Read]'s loops on a decoder [s]: the source, current
    byte and bit count are those left over, the parse fields are [q]. *)
Lemma readBits_spec k : forall s buf cpos vs q rem,
  nBits s = Z.of_nat k -> Z.of_nat k < 2 ^ 62 ->
  consume (length buf - cpos) (pst s) (bits_be k (b s)) = (vs, q, rem) ->
  readBits k s buf cpos
  = (set_nBits (with_pst s q) (Z.of_nat (length rem)),
     store buf cpos vs, (cpos + length vs)%nat,
     match rem with [] => false | _ => true end)
  /\ rem = bits_be (length rem) (b s) /\ (length rem <= k)%nat.
Proof.
  induction k as [|k IH]; intros s buf cpos vs q rem Hn Hk Hc.
  - simpl in Hc. injection Hc as <- <- <-. simpl.
    rewrite Nat.add_0_r. repeat split; try lia.
    destruct s; unfold set_nBits, with_pst, pst; simpl in *. now subst.
  - cbn [readBits].
    destruct (Z.ltb_spec 0 (nBits s)); [|lia].
    destruct (Nat.leb_spec (length buf) cpos) as [Hfull|Hroom].
    + replace (length buf - cpos)%nat with 0%nat in Hc by lia.
      cbn [bits_be consume] in Hc. injection Hc as <- <- <-.
      cbn [length]. rewrite length_bits_be, Nat.add_0_r.
      split; [|split; [reflexivity | lia]].
      do 3 f_equal.
      destruct s; unfold set_nBits, with_pst, pst; simpl in *. now subst.
    + rewrite (u64_small (nBits s - 1)) by lia.
      rewrite (i64_small (nBits s - 1)) by lia.
      replace (nBits s - 1) with (Z.of_nat k) by lia.
      rewrite bit_of_byte by lia.
      rewrite decodeBit_parse.
      replace (length buf - cpos)%nat with (S (length buf - S cpos)) in Hc by lia.
      cbn [bits_be consume] in Hc.
      change (pst (set_nBits s (Z.of_nat k))) with (pst s).
      destruct (parseBit (pst s) (Z.testbit (b s) (Z.of_nat k))) as [p' [v|]].
      * destruct (consume (length buf - S cpos) p' (bits_be k (b s)))
          as [[vs' q'] rm] eqn:Hc'.
        injection Hc as <- <- <-.
        destruct (IH (with_pst (set_nBits s (Z.of_nat k)) p')
                     (<[cpos := v]> buf) (S cpos) vs' q' rm) as (Hr & Hrm & Hlen).
        { reflexivity. }
        { lia. }
        { rewrite length_insert, pst_with_pst. exact Hc'. }
        rewrite Hr. split; [|split; [exact Hrm | lia]].
        cbn [store length]. do 2 f_equal. lia.
      * destruct (IH (with_pst (set_nBits s (Z.of_nat k)) p')
                     buf cpos vs q rem) as (Hr & Hrm & Hlen).
        { reflexivity. }
        { lia. }
        { rewrite pst_with_pst.
          replace (length buf - cpos)%nat with (S (length buf - S cpos)) by lia.
          exact Hc. }
        rewrite Hr. split; [|split; [exact Hrm | lia]].
        reflexivity.
Qed.

Lemma readLoop_spec fuel : forall s buf cpos vs q rem,
  0 <= nBits s <= 8 ->
  (length (r s) + (if (nBits s =? 0)%Z then 0 else 1) < fuel)%nat ->
  consume (length buf - cpos) (pst s) (avail s) = (vs, q, rem) ->
  exists s',
    readLoop fuel s buf cpos
    = Some (s', store buf cpos vs, (cpos + length vs)%nat,
            match rem with [] => Some EOF | _ => None end) /\
    pst s' = q /\ avail s' = rem /\ 0 <= nBits s' <= 8.
Proof.
  induction fuel as [|fuel IH]; intros s buf cpos vs q rem Hn Hf Hc; [lia|].
  cbn [readLoop].
  destruct (Z.eqb_spec (nBits s) 0) as [Hz|Hnz].
  - destruct (r s) as [|c rest] eqn:Hr.
    + (* the source has run out *)
      cbn [ReadByte].
      unfold avail in Hc. rewrite Hz, Hr in Hc. simpl in Hc.
      injection Hc as <- <- <-.
      eexists. split; [simpl; rewrite Nat.add_0_r; reflexivity|].
      split; [reflexivity|]. split.
      * unfold avail. cbn [nBits b r set_b set_r]. now rewrite Hz.
      * cbn [nBits set_b set_r]. lia.
    + (* a fresh byte *)
      cbn [ReadByte].
      set (s1 := set_nBits (set_b (set_r s rest) c) 8).
      unfold avail in Hc. rewrite Hz, Hr in Hc.
      change (bits_be (Z.to_nat 0) (b s) ++ bytes_bits (c :: rest))
        with (bits_be 8 c ++ bytes_bits rest) in Hc.
      destruct (consume (length buf - cpos) (pst s) (bits_be 8 c))
        as [[vs1 q1] rem1] eqn:Hc1.
      rewrite (consume_app _ _ _ _ _ _ _ Hc1) in Hc.
      destruct (readBits_spec 8 s1 buf cpos vs1 q1 rem1) as (Hrb & Hrm & Hlen);
        [reflexivity | lia | exact Hc1 |].
      change (Z.to_nat (nBits s1)) with 8%nat.
      rewrite Hrb. subst s1.
      destruct rem1 as [|x rem1].
      * destruct (consume (length buf - cpos - length vs1) q1 (bytes_bits rest))
          as [[vs2 q2] rem2] eqn:Hc2.
        injection Hc as <- <- <-.
        destruct (IH (set_nBits (with_pst (set_nBits (set_b (set_r s rest) c) 8) q1)
                                (Z.of_nat (length (@nil bool))))
                     (store buf cpos vs1) (cpos + length vs1)%nat vs2 q2 rem2)
          as (s' & Hrl & Hp & Ha & Hn').
        { cbn. change (Z.of_nat 0) with 0. lia. }
        { cbn. change (Z.of_nat 0) with 0. simpl in Hf |- *. lia. }
        { rewrite length_store. change (length (@nil bool)) with 0%nat.
          rewrite pst_after, avail_after.
          replace (length buf - (cpos + length vs1))%nat
            with (length buf - cpos - length vs1)%nat by lia.
          exact Hc2. }
        exists s'. rewrite Hrl, store_app, length_app, Nat.add_assoc.
        repeat split; assumption || lia.
      * injection Hc as <- <- <-.
        eexists. split; [reflexivity|].
        split; [destruct q1; reflexivity|].
        split; [|cbn; simpl in Hlen; lia].
        unfold avail. cbn [nBits b r set_nBits with_pst set_b set_r] in Hrm |- *.
        rewrite Nat2Z.id. rewrite <- Hrm. reflexivity.
  - (* bits of the current byte are left from the last call *)
    unfold avail in Hc.
    destruct (consume (length buf - cpos) (pst s)
                      (bits_be (Z.to_nat (nBits s)) (b s)))
      as [[vs1 q1] rem1] eqn:Hc1.
    rewrite (consume_app _ _ _ _ _ _ _ Hc1) in Hc.
    destruct (readBits_spec (Z.to_nat (nBits s)) s buf cpos vs1 q1 rem1)
      as (Hrb & Hrm & Hlen); [lia | lia | exact Hc1 |].
    rewrite Hrb.
    destruct rem1 as [|x rem1].
    + destruct (consume (length buf - cpos - length vs1) q1 (bytes_bits (r s)))
        as [[vs2 q2] rem2] eqn:Hc2.
      injection Hc as <- <- <-.
      destruct (IH (set_nBits (with_pst s q1) (Z.of_nat (length (@nil bool))))
                   (store buf cpos vs1) (cpos + length vs1)%nat vs2 q2 rem2)
        as (s' & Hrl & Hp & Ha & Hn').
      { cbn. change (Z.of_nat 0) with 0. lia. }
      { cbn. change (Z.of_nat 0) with 0. simpl.
        destruct (Z.eqb_spec (nBits s) 0); [contradiction|]. lia. }
      { rewrite length_store. change (length (@nil bool)) with 0%nat.
        rewrite pst_after, avail_after.
        replace (length buf - (cpos + length vs1))%nat
          with (length buf - cpos - length vs1)%nat by lia.
        exact Hc2. }
      exists s'. rewrite Hrl, store_app, length_app, Nat.add_assoc.
      repeat split; assumption || lia.
    + injection Hc as <- <- <-.
      eexists. split; [reflexivity|].
      split; [destruct q1; reflexivity|].
      split; [|cbn [nBits set_nBits]; lia].
      unfold avail. cbn [nBits b r set_nBits with_pst].
      rewrite Nat2Z.id. rewrite <- Hrm. reflexivity.
Qed.

(** [Read] in one equation. *)
Lemma Read_spec s buf vs q rem :
  0 <= nBits s <= 8 ->
  consume (length buf) (pst s) (avail s) = (vs, q, rem) ->
  exists s',
    Read s buf
    = Some (s', store buf 0 vs, length vs,
            match rem with [] => Some EOF | _ => None end) /\
    pst s' = q /\ avail s' = rem /\ 0 <= nBits s' <= 8.
Proof.
  intros Hn Hc. unfold Read.
  apply readLoop_spec; [assumption | | now rewrite Nat.sub_0_r].
  destruct (nBits s =? 0); lia.
Qed.

End DecoderBits.

(** ** Decoding a codeword *)

Section DecodeCodeword.

Lemma parseBit_zero v z :
  parseBit (mkParse COUNTING_ZEROS v z) false
  = (mkParse COUNTING_ZEROS v (i64 (z + 1)), None).
Proof. reflexivity. Qed.

Lemma parseBit_one_alone v :
  parseBit (mkParse COUNTING_ZEROS v 0) true
  = (mkParse COUNTING_ZEROS v 0, Some 0).
Proof. reflexivity. Qed.

Lemma parseBit_delimiter v z :
  z <> 0 ->
  parseBit (mkParse COUNTING_ZEROS v z) true = (mkParse SHIFTING_BITS 1 z, None).
Proof.
  intros Hz. unfold parseBit, decodeBit. cbn.
  destruct (Z.eqb_spec z 0); [contradiction | reflexivity].
Qed.

Lemma parseBit_shift a z bit :
  parseBit (mkParse SHIFTING_BITS a z) bit
  = let v := Z.lor (i64 (Z.shiftl a 1)) (Z.b2z bit) in
    if i64 (z - 1) =? 0
    then (mkParse COUNTING_ZEROS (i64 (v - 1)) (i64 (z - 1)), Some (i64 (v - 1)))
    else (mkParse SHIFTING_BITS v (i64 (z - 1)), None).
Proof.
  unfold parseBit, decodeBit, set_val, set_zeros, set_state.
  cbn [state val zeros r b nBits p_state p_val p_zeros].
  change (SHIFTING_BITS =? COUNTING_ZEROS) with false.
  change (SHIFTING_BITS =? SHIFTING_BITS) with true. cbv iota.
  destruct (i64 (z - 1) =? 0); reflexivity.
Qed.

Lemma run_zeros k : forall v z rest,
  0 <= z -> z + Z.of_nat k < 2 ^ 63 ->
  run (mkParse COUNTING_ZEROS v z) (repeat false k ++ rest)
  = run (mkParse COUNTING_ZEROS v (z + Z.of_nat k)) rest.
Proof.
  induction k as [|k IH]; intros v z rest Hz Hk.
  - simpl. now rewrite Z.add_0_r.
  - cbn [repeat app run]. rewrite parseBit_zero.
    rewrite i64_small by lia. rewrite IH by lia.
    replace (z + 1 + Z.of_nat k) with (z + Z.of_nat (S k)) by lia.
    now destruct (run _ rest).
Qed.

Lemma mod_pow2_succ x k :
  0 <= k ->
  x mod 2 ^ (k + 1) = Z.b2z (Z.testbit x k) * 2 ^ k + x mod 2 ^ k.
Proof.
  intros Hk. rewrite Z.pow_add_r, Z.pow_1_r by lia.
  rewrite Z.rem_mul_r by lia.
  rewrite Z.testbit_spec' by lia. lia.
Qed.

Lemma lor_shift_bit a bit :
  0 <= a -> Z.lor (Z.shiftl a 1) (Z.b2z bit) = 2 * a + Z.b2z bit.
Proof.
  intros Ha. rewrite Z.lor_comm, Z.shiftl_mul_pow2 by lia.
  rewrite Z.lor_comm.
  rewrite (lor_disjoint_add (a * 2 ^ 1) (Z.b2z bit) 1); try lia.
  - destruct bit; simpl; lia.
  - apply Z.mod_mul. lia.
Qed.

(** The magnitude bits: [k] of them are shifted into the accumulator, and
    the last one emits the value straight away. *)
Lemma run_shift k : forall a x rest,
  (1 <= k)%nat -> 1 <= a -> (a + 1) * 2 ^ Z.of_nat k <= 2 ^ 62 ->
  run (mkParse SHIFTING_BITS a (Z.of_nat k)) (bits_be k x ++ rest)
  = let w := a * 2 ^ Z.of_nat k + x mod 2 ^ Z.of_nat k - 1 in
    (w :: fst (run (mkParse COUNTING_ZEROS w 0) rest),
     snd (run (mkParse COUNTING_ZEROS w 0) rest)).
Proof.
  induction k as [|k IH]; intros a x rest Hk Ha Hb; [lia|].
  cbn [bits_be app run]. rewrite parseBit_shift. cbv zeta.
  assert (Hpow : 2 ^ Z.of_nat (S k) = 2 * 2 ^ Z.of_nat k).
  { rewrite Nat2Z.inj_succ, Z.pow_succ_r by lia. reflexivity. }
  assert (Hp : 0 < 2 ^ Z.of_nat k) by (apply Z.pow_pos_nonneg; lia).
  rewrite Hpow in Hb.
  assert (Hk62 : Z.of_nat k < 62).
  { destruct (Z.lt_ge_cases (Z.of_nat k) 62) as [|Hge]; [assumption|].
    apply (Z.pow_le_mono_r 2) in Hge; nia. }
  assert (Ha2 : Z.shiftl a 1 = 2 * a) by (rewrite Z.shiftl_mul_pow2; lia).
  rewrite (i64_small (Z.shiftl a 1)) by (rewrite Ha2; nia).
  rewrite lor_shift_bit by lia.
  rewrite (i64_small (Z.of_nat (S k) - 1)) by lia.
  replace (Z.of_nat (S k) - 1) with (Z.of_nat k) by lia.
  set (bit := Z.testbit x (Z.of_nat k)).
  assert (Hbit : 0 <= Z.b2z bit <= 1) by (destruct bit; simpl; lia).
  assert (Hmod : x mod 2 ^ Z.of_nat (S k)
                 = Z.b2z bit * 2 ^ Z.of_nat k + x mod 2 ^ Z.of_nat k).
  { rewrite Nat2Z.inj_succ. unfold Z.succ. apply mod_pow2_succ. lia. }
  destruct (Z.eqb_spec (Z.of_nat k) 0) as [Hk0|Hk0].
  - assert (k = 0%nat) by lia. subst k.
    rewrite Hmod. change (2 ^ Z.of_nat 0) with 1 in *.
    rewrite Z.mod_1_r.
    rewrite i64_small by nia. cbn [bits_be app].
    replace (a * 2 ^ Z.of_nat 1 + (Z.b2z bit * 1 + 0) - 1)
      with (2 * a + Z.b2z bit - 1) by (change (2 ^ Z.of_nat 1) with 2; lia).
    change (Z.of_nat 0) with 0.
    now destruct (run _ rest).
  - rewrite IH by (lia || nia). cbv zeta.
    rewrite Hmod, Hpow.
    replace ((2 * a + Z.b2z bit) * 2 ^ Z.of_nat k + x mod 2 ^ Z.of_nat k - 1)
      with (a * (2 * 2 ^ Z.of_nat k)
            + (Z.b2z bit * 2 ^ Z.of_nat k + x mod 2 ^ Z.of_nat k) - 1) by ring.
    reflexivity.
Qed.

(** The shape of a nonzero codeword: the unary prefix, the delimiter, the
    magnitude bits and the sign bit. *)
Lemma codeword_shape v :
  v <> 0 -> in_range v ->
  spec_codeword v
  = repeat false (Z.to_nat (spec_nbits v))
    ++ true :: bits_be (Z.to_nat (spec_nbits v)) (Z.abs v + 1) ++ [v <? 0].
Proof.
  intros Hv Hr. destruct (spec_nbits_range v Hv Hr) as (Hn & Hm).
  unfold spec_codeword. destruct (Z.eqb_spec v 0); [contradiction|].
  f_equal.
  set (k := spec_nbits v) in *. set (m := Z.abs v + 1) in *.
  replace (Z.to_nat (k + 2)) with (1 + (Z.to_nat k + 1))%nat by lia.
  rewrite bits_be_app, bits_be_app.
  cbn [bits_be app]. f_equal; [|f_equal].
  - rewrite Z.shiftr_spec, Z.lor_spec, Z.shiftl_spec by lia.
    replace (Z.of_nat 0 + Z.of_nat (Z.to_nat k + 1) - 1) with k by lia.
    assert (Hlog : Z.log2 m = k) by (apply Z.log2_unique; lia).
    rewrite <- Hlog, Z.bit_log2 by lia. reflexivity.
  - apply bits_be_ext. intros i Hi.
    rewrite Z.shiftr_spec, Z.lor_spec, Z.shiftl_spec by lia.
    replace (i + Z.of_nat 1 - 1) with i by lia.
    assert (Hs : Z.testbit (spec_sign v) (i + Z.of_nat 1) = false).
    { unfold spec_sign. destruct (0 <? v).
      - apply Z.testbit_0_l.
      - apply (high_bits_zero 1 1); lia. }
    rewrite Hs. apply orb_false_r.
  - f_equal. rewrite Z.lor_spec, Z.shiftl_spec by lia.
    rewrite Z.testbit_neg_r by lia.
    unfold spec_sign.
    destruct (Z.ltb_spec 0 v), (Z.ltb_spec v 0); try lia; reflexivity.
Qed.

Lemma length_codeword v :
  v <> 0 -> in_range v ->
  Z.of_nat (length (spec_codeword v)) = 2 * spec_nbits v + 2.
Proof.
  intros Hv Hr. destruct (spec_nbits_range v Hv Hr) as (Hn & _).
  rewrite codeword_shape by assumption.
  rewrite length_app, repeat_length. cbn [length].
  rewrite length_app, length_bits_be. cbn [length]. lia.
Qed.

(** From the start of a codeword the decoder emits the magnitude of the
    encoded value on the last magnitude bit, and takes the sign bit for the
    first bit of the next codeword. *)
Lemma run_codeword v a rest :
  v <> 0 -> in_range v ->
  run (mkParse COUNTING_ZEROS a 0) (spec_codeword v ++ rest)
  = (Z.abs v :: fst (run (mkParse COUNTING_ZEROS (Z.abs v) 0) ((v <? 0) :: rest)),
     snd (run (mkParse COUNTING_ZEROS (Z.abs v) 0) ((v <? 0) :: rest))).
Proof.
  intros Hv Hr. destruct (spec_nbits_range v Hv Hr) as (Hn & Hm).
  rewrite codeword_shape by assumption.
  set (k := spec_nbits v) in *.
  rewrite <- app_assoc, run_zeros by lia.
  rewrite Z2Nat.id, Z.add_0_l by lia.
  cbn [app run]. rewrite parseBit_delimiter by lia.
  rewrite <- app_assoc.
  replace k with (Z.of_nat (Z.to_nat k)) at 1 by lia.
  assert (H62 : 2 ^ k < 2 ^ 62) by (apply Z.pow_lt_mono_r; lia).
  assert (H61 : 2 ^ k <= 2 ^ 61) by (apply Z.pow_le_mono_r; lia).
  rewrite run_shift by (rewrite ?Z2Nat.id by lia; lia).
  cbv zeta. rewrite Z2Nat.id by lia.
  assert (Hw : 1 * 2 ^ k + (Z.abs v + 1) mod 2 ^ k - 1 = Z.abs v).
  { replace (Z.abs v + 1) with ((Z.abs v + 1 - 2 ^ k) + 1 * 2 ^ k) at 1 by lia.
    rewrite Z.mod_add by lia.
    rewrite Z.mod_small; [lia|].
    rewrite Z.pow_add_r, Z.pow_1_r in Hm by lia. lia. }
  rewrite Hw. reflexivity.
Qed.

End DecodeCodeword.

(** ** Properties of the encoder *)

Section FastPath.

Lemma zero_then_bits s x :
  1 <= bitsleft s <= 64 -> 4 <= x <= 7 ->
  addBits (addZeroBits s 1) x 3 = addBits s x 4.
Proof.
  intros Hbl Hx. destruct s as [d bl o ob]. cbn [bitsleft] in Hbl.
  assert (Hs : Z.shiftr x 3 = 0).
  { rewrite Z.shiftr_div_pow2 by lia. apply Z.div_small. lia. }
  unfold addZeroBits. cbn [bitsleft data out outbuf].
  destruct (Z.ltb_spec 1 bl).
  - rewrite (u64_small (bl - 1)) by lia.
    unfold addBits. cbn [bitsleft data out outbuf].
    destruct (Z.ltb_spec 3 (bl - 1)), (Z.ltb_spec 4 bl); try lia.
    + replace (bl - 1 - 3) with (bl - 4) by lia. reflexivity.
    + replace (3 - (bl - 1)) with (4 - bl) by lia. reflexivity.
  - assert (bl = 1) by lia. subst bl.
    unfold addBits, emitBits. cbn [bitsleft data out outbuf].
    change (u64 (1 - 1)) with 0. change (Z.to_nat (0 / egWordBits)) with 0%nat.
    cbn [zeroWords bitsleft data out outbuf].
    change (u64 (egWordBits - 0)) with 64.
    change (3 <? 64) with true. change (4 <? 1) with false. cbv iota.
    change (u64 (64 - 3)) with 61. change (u64 (4 - 1)) with 3.
    change (u64 (egWordBits - 3)) with 61.
    rewrite shr64_spec, Hs, Z.lor_0_r by lia.
    reflexivity.
Qed.

(** On the four nonzero table entries the shortcut and the general path
    leave the encoder in the same state. *)
Lemma fast_path_state s v :
  enc_inv s -> In v [1; -1; 2; -2] -> add s v = add_general s v.
Proof.
  intros (Hbl & _) Hv. unfold egWordBits in Hbl.
  simpl in Hv. destruct Hv as [<-|[<-|[<-|[<-|[]]]]].
  - symmetry. apply (zero_then_bits s 4); lia.
  - symmetry. apply (zero_then_bits s 5); lia.
  - symmetry. apply (zero_then_bits s 6); lia.
  - symmetry. apply (zero_then_bits s 7); lia.
Qed.

Lemma table_entries_in_range v : In v [0; 1; -1; 2; -2] -> in_range v.
Proof.
  simpl. unfold in_range.
  intros [<-|[<-|[<-|[<-|[<-|[]]]]]]; simpl; lia.
Qed.

Lemma table_is_spec v : In v [0; 1; -1; 2; -2] -> spec_codeword v = table_codeword v.
Proof.
  simpl. intros [<-|[<-|[<-|[<-|[<-|[]]]]]]; reflexivity.
Qed.

End FastPath.

(** C4 (amended). For each of 1, -1, 2 and -2 the shortcut of [add]
    leaves the encoder in the very state the general path below the switch
    does, so the output is bit-identical; for all five table entries [add]
    appends the codeword of the format (1, 0100, 0101, 0110, 0111), where
    the codeword of 0 is the format's separate one-bit case. *)
Theorem C4_fast_path_amended s v :
  enc_inv s -> In v [0; 1; -1; 2; -2] ->
  stream (add s v) = stream s ++ table_codeword v /\
  table_codeword v = spec_codeword v /\
  (v <> 0 ->
   add s v = add_general s v /\
   stream (add_general s v) = stream s ++ table_codeword v).
Proof.
  intros Hs Hv.
  pose proof (table_entries_in_range v Hv) as Hr.
  destruct (add_spec s v Hs Hr) as (_ & Hst).
  rewrite table_is_spec in Hst by assumption.
  split; [exact Hst|]. split; [symmetry; now apply table_is_spec|].
  intros Hne.
  assert (Hin : In v [1; -1; 2; -2]).
  { simpl in Hv |- *. destruct Hv as [H|H]; [congruence | exact H]. }
  pose proof (fast_path_state s v Hs Hin) as Heq.
  split; [exact Heq|]. now rewrite <- Heq.
Qed.

Lemma C4_fast_path_amended_witness :
  enc_inv (NewExpGolombEncoder (mkWriter [] [])) /\
  In (-2) [0; 1; -1; 2; -2] /\
  stream (add (NewExpGolombEncoder (mkWriter [] [])) (-2))
  = stream (NewExpGolombEncoder (mkWriter [] [])) ++ table_codeword (-2).
Proof.
  assert (Hs : enc_inv (NewExpGolombEncoder (mkWriter [] [])))
    by (repeat split; vm_compute; congruence).
  assert (Hv : In (-2) [0; 1; -1; 2; -2]) by (simpl; tauto).
  split; [exact Hs|]. split; [exact Hv|].
  exact (proj1 (C4_fast_path_amended _ _ Hs Hv)).
Defined.

(** C4 as stated fails at 0: the general path run on 0 appends the two
    bits 10, the table the single bit 1. *)
Lemma C4_counterexample :
  ~ (forall v, In v [0; 1; -1; 2; -2] ->
     forall s, enc_inv s -> stream (add s v) = stream (add_general s v)).
Proof.
  intros H.
  specialize (H 0 ltac:(simpl; tauto) (NewExpGolombEncoder (mkWriter [] []))
                ltac:(repeat split; vm_compute; congruence)).
  vm_compute in H. discriminate H.
Qed.

(** C5. Encoding 0 appends the single bit 1. Encoding a nonzero value in
    range appends [2 * nbits + 2] bits, [nbits = bitlength (|v| + 1) - 1]:
    [nbits] zero bits, then the [nbits + 2] bits of delimiter, magnitude and
    sign. *)
Theorem C5_codeword_length s v :
  enc_inv s -> in_range v ->
  exists cw,
    stream (add s v) = stream s ++ cw /\
    (v = 0 -> cw = [true]) /\
    (v <> 0 ->
     let nbits := bitlength (Z.abs v + 1) - 1 in
     bitLen (Z.abs v + 1) = bitlength (Z.abs v + 1) /\
     Z.of_nat (length cw) = 2 * nbits + 2 /\
     exists tail,
       cw = repeat false (Z.to_nat nbits) ++ tail /\
       Z.of_nat (length tail) = nbits + 2 /\
       tail = true :: bits_be (Z.to_nat nbits) (Z.abs v + 1) ++ [v <? 0]).
Proof.
  intros Hs Hr. exists (spec_codeword v).
  split; [apply add_spec; assumption|].
  split; [intros ->; reflexivity|].
  intros Hv nbits.
  destruct (spec_nbits_range v Hv Hr) as (Hn & Hm).
  fold (spec_nbits v) in nbits. subst nbits.
  split.
  { unfold in_range in Hr. apply bitLen_log2. lia. }
  split; [now apply length_codeword|].
  eexists. split; [now apply codeword_shape|].
  split; [|reflexivity].
  cbn [length]. rewrite length_app, length_bits_be. cbn [length]. lia.
Qed.

Lemma C5_codeword_length_witness :
  enc_inv (NewExpGolombEncoder (mkWriter [] [])) /\ in_range 5 /\
  exists cw,
    stream (add (NewExpGolombEncoder (mkWriter [] [])) 5)
    = stream (NewExpGolombEncoder (mkWriter [] [])) ++ cw /\
    Z.of_nat (length cw) = 6.
Proof.
  assert (Hs : enc_inv (NewExpGolombEncoder (mkWriter [] [])))
    by (repeat split; vm_compute; congruence).
  assert (Hr : in_range 5) by (vm_compute; congruence).
  split; [exact Hs|]. split; [exact Hr|].
  destruct (C5_codeword_length _ _ Hs Hr) as (cw & Hst & _ & Hnz).
  exists cw. split; [exact Hst|].
  destruct (Hnz ltac:(lia)) as (_ & Hlen & _). exact Hlen.
Defined.

(** C6. [Close] on an encoder with pending bits writes
    [(pending + 7) / 8] bytes, the first bytes of the word: the pending bits
    followed by zero bits up to the byte boundary. With nothing pending it
    writes nothing. Either way the sink ends flushed. *)
Theorem C6_close s :
  enc_inv s ->
  let npend := egWordBits - bitsleft s in
  let nbytes := (npend + 7) / 8 in
  exists s' newbytes,
    Close s = Some s' /\
    buffered (out s') = [] /\
    flushed (out s') = written (out s) ++ newbytes /\
    newbytes = take (Z.to_nat nbytes) (PutUint64 (data s)) /\
    Z.of_nat (length newbytes) = nbytes /\
    0 <= 8 * nbytes - npend < 8 /\
    bytes_bits newbytes = pending s ++ repeat false (Z.to_nat (8 * nbytes - npend)) /\
    (bitsleft s = egWordBits -> newbytes = []) /\
    (bitsleft s <> egWordBits -> 1 <= nbytes <= 8).
Proof.
  intros Hs npend nbytes.
  destruct (Close_spec s Hs) as (s' & Hc & _ & _ & Hb & Hf & Hl & Hbits).
  fold npend in Hf, Hl, Hbits. fold nbytes in Hf, Hl, Hbits.
  destruct Hs as (Hbl & _). unfold egWordBits in *.
  assert (Hnb : 0 <= nbytes /\ 0 <= 8 * nbytes - npend < 8).
  { subst nbytes npend. Z.div_mod_to_equations. lia. }
  exists s', (take (Z.to_nat nbytes) (PutUint64 (data s))).
  split; [exact Hc|]. split; [exact Hb|]. split; [exact Hf|].
  split; [reflexivity|]. split; [rewrite Hl; lia|]. split; [lia|].
  split; [exact Hbits|]. split.
  - intros Hfull. subst nbytes npend. rewrite Hfull. reflexivity.
  - intros Hne. subst nbytes npend. Z.div_mod_to_equations. lia.
Qed.

Lemma C6_close_witness :
  enc_inv (add (NewExpGolombEncoder (mkWriter [] [])) 1) /\
  exists s',
    Close (add (NewExpGolombEncoder (mkWriter [] [])) 1) = Some s' /\
    buffered (out s') = [] /\ flushed (out s') = [64].
Proof.
  assert (Hs : enc_inv (add (NewExpGolombEncoder (mkWriter [] [])) 1))
    by (repeat split; vm_compute; congruence).
  split; [exact Hs|].
  destruct (C6_close _ Hs) as (s' & nb & Hc & Hb & Hf & Hnb & _).
  exists s'. split; [exact Hc|]. split; [exact Hb|].
  rewrite Hf, Hnb. reflexivity.
Defined.

(** C7. The encoder invariant: [bitsleft] is in [1, 64], the word holds the
    [64 - bitsleft] pending bits at its top and zeros below. It holds of a
    new encoder and is kept by [add] (and so [Write], [WriteInt]),
    [addBits], [addZeroBits] and [Close]; the pending bits are the ones
    appended and not yet written. *)
Theorem C7_encoder_invariant s :
  enc_inv s ->
  (1 <= bitsleft s <= 64 /\
   bits_be 64 (data s) = pending s ++ repeat false (Z.to_nat (bitsleft s))) /\
  (forall item, is_int item -> enc_inv (add s item)) /\
  (forall ilist, Forall is_int ilist -> enc_inv (Write s ilist)) /\
  (forall bits nbits, 0 <= nbits <= 64 -> enc_inv (addBits s bits nbits)) /\
  (forall bits nbits, 0 <= nbits <= 64 -> 0 <= bits < 2 ^ nbits ->
     stream (addBits s bits nbits) = stream s ++ bits_be (Z.to_nat nbits) bits) /\
  (forall nzeros, is_uint nzeros ->
     enc_inv (addZeroBits s nzeros) /\
     stream (addZeroBits s nzeros) = stream s ++ repeat false (Z.to_nat nzeros)) /\
  (exists s', Close s = Some s' /\ enc_inv s').
Proof.
  intros Hs.
  split; [split; [apply Hs | now apply word_bits]|].
  split; [intros; now apply add_inv|].
  split; [intros; now apply Write_inv|].
  split; [intros; now apply addBits_inv|].
  split; [intros; now apply addBits_stream|].
  split; [intros; now apply addZeroBits_spec|].
  destruct (Close_spec s Hs) as (s' & Hc & Hd & Hbl & _).
  exists s'. split; [exact Hc|].
  unfold enc_inv. rewrite Hd, Hbl. unfold egWordBits.
  split; [lia|]. split; [lia|]. apply Z.mod_0_l. lia.
Qed.

Lemma C7_encoder_invariant_witness :
  enc_inv (NewExpGolombEncoder (mkWriter [] [])) /\
  enc_inv (add (NewExpGolombEncoder (mkWriter [] [])) (- 2 ^ 63)).
Proof.
  assert (Hs : enc_inv (NewExpGolombEncoder (mkWriter [] [])))
    by (repeat split; vm_compute; congruence).
  split; [exact Hs|].
  apply (proj1 (proj2 (C7_encoder_invariant _ Hs))).
  vm_compute. split; congruence.
Defined.

(** ** Streams of codewords *)

Section Streams.

Lemma encode_bits l :
  Forall in_range l ->
  exists bytes pad,
    encode l = Some bytes /\ (pad < 8)%nat /\
    bytes_bits bytes = flat_map spec_codeword l ++ repeat false pad.
Proof.
  intros Hr. unfold encode.
  set (e0 := NewExpGolombEncoder (mkWriter [] [])).
  destruct (Write_spec l e0 (enc_inv_new _) Hr) as (Hi & Hst).
  destruct (Close_spec _ Hi) as (s' & Hc & _ & _ & _ & Hfl & _ & Hbits).
  rewrite Hc. eexists. eexists. split; [reflexivity|]. split.
  2:{ rewrite Hfl, bytes_bits_app, Hbits, app_assoc.
      fold (stream (Write e0 l)).
      rewrite Hst. subst e0. rewrite stream_new. reflexivity. }
  destruct Hi as (Hbl & _). unfold egWordBits in *.
  Z.div_mod_to_equations. lia.
Qed.

Lemma DeltaEncode_encode start values :
  DeltaEncode start values = encode (deltas start values).
Proof.
  unfold DeltaEncode, encode.
  pose proof (DeltaEncode_Write values
                (NewExpGolombEncoder (mkWriter [] [])) start) as Hw.
  destruct (fold_left _ values _) as [egs prev]. simpl in Hw. now subst egs.
Qed.

Lemma avail_new src : avail (NewExpGolombDecoder src) = bytes_bits src.
Proof. reflexivity. Qed.

Lemma avail_nil s :
  0 <= nBits s -> avail s = [] -> nBits s = 0 /\ r s = [].
Proof.
  intros Hn Ha. apply (f_equal (@length bool)) in Ha.
  unfold avail in Ha. rewrite length_app, length_bits_be, length_bytes_bits in Ha.
  simpl in Ha. split; [lia|].
  destruct (r s); [reflexivity | simpl in Ha; lia].
Qed.

Lemma store_lookup_lt vs : forall (buf : list Z) cpos i,
  (i < cpos)%nat -> store buf cpos vs !! i = buf !! i.
Proof.
  induction vs as [|v vs IH]; intros buf cpos i Hi; simpl; [reflexivity|].
  rewrite IH by lia. apply list_lookup_insert_ne. lia.
Qed.

Lemma store_lookup_first (buf : list Z) v vs :
  (0 < length buf)%nat -> store buf 0 (v :: vs) !! 0%nat = Some v.
Proof.
  intros Hl. simpl. rewrite store_lookup_lt by lia.
  apply list_lookup_insert_eq. lia.
Qed.

(** The loop of [DeltaDecode] sums every value the bits decode to. *)
Lemma deltaLoop_spec fuel : forall d tmp v res,
  0 <= nBits d <= 8 -> length tmp = 1%nat ->
  (length (avail d) < fuel)%nat ->
  deltaLoop fuel d tmp v res
  = Some (res ++ sums v (fst (run (pst d) (avail d)))).
Proof.
  induction fuel as [|fuel IH]; intros d tmp v res Hn Ht Hf; [lia|].
  cbn [deltaLoop].
  destruct (consume 1 (pst d) (avail d)) as [[vs q] rem] eqn:Hc.
  destruct (Read_spec d tmp vs q rem Hn) as (s' & HR & Hp & Ha & Hn').
  { now rewrite Ht. }
  rewrite HR.
  destruct (consume_length _ _ _ _ _ _ Hc) as (Hl1 & Hl2 & Hl3 & Hl4).
  rewrite (consume_run _ _ _ _ _ _ Hc). cbn [fst].
  destruct vs as [|x [|y vs]]; [| |simpl in Hl1; lia].
  - destruct rem as [|c rem]; [|specialize (Hl3 ltac:(discriminate)); discriminate].
    simpl. now rewrite app_nil_r.
  - cbn [length Nat.ltb Nat.leb].
    rewrite store_lookup_first by lia. cbn [default].
    destruct rem as [|c rem].
    + reflexivity.
    + rewrite IH.
      * rewrite Hp, Ha, <- app_assoc. reflexivity.
      * assumption.
      * now rewrite length_store.
      * rewrite Ha. specialize (Hl4 ltac:(discriminate) ltac:(lia)). lia.
Qed.

Lemma DeltaDecode_spec base compressed :
  DeltaDecode base compressed
  = Some (sums base (fst (run parse0 (bytes_bits compressed)))).
Proof.
  unfold DeltaDecode. rewrite deltaLoop_spec.
  - reflexivity.
  - simpl. lia.
  - reflexivity.
  - rewrite avail_new, length_bytes_bits. lia.
Qed.

End Streams.

(** ** Properties of the decoder *)

Section DecoderInvariants.

Lemma decodeBit_state_ok s bit buf cpos :
  state_ok s -> state_ok (fst (fst (decodeBit s bit buf cpos))).
Proof.
  unfold state_ok, decodeBit, set_val, set_zeros, set_state.
  intros [H|H]; rewrite H.
  - change (COUNTING_ZEROS =? COUNTING_ZEROS) with true. cbv iota.
    destruct (bit =? 0); [left; reflexivity|].
    destruct (zeros s =? 0); [left; exact H | right; reflexivity].
  - change (SHIFTING_BITS =? COUNTING_ZEROS) with false.
    change (SHIFTING_BITS =? SHIFTING_BITS) with true. cbv iota.
    cbn [state val zeros r b nBits].
    destruct (i64 (zeros s - 1) =? 0); [left; reflexivity | right; reflexivity].
Qed.

Lemma readBits_state_ok fuel : forall s buf cpos,
  state_ok s -> state_ok (fst (fst (fst (readBits fuel s buf cpos)))).
Proof.
  induction fuel as [|fuel IH]; intros s buf cpos Hs; [exact Hs|].
  cbn [readBits].
  destruct (0 <? nBits s); [|exact Hs].
  destruct (length buf <=? cpos)%nat; [exact Hs|].
  pose proof (decodeBit_state_ok (set_nBits s (i64 (nBits s - 1)))
                (Z.land (Z.shiftr (b s) (u64 (nBits s - 1))) 1) buf cpos Hs) as Hd.
  destruct (decodeBit _ _ buf cpos) as [[s1 buf1] cpos1].
  apply IH. exact Hd.
Qed.

Lemma readLoop_state_ok fuel : forall s buf cpos s' buf' n e,
  state_ok s -> readLoop fuel s buf cpos = Some (s', buf', n, e) -> state_ok s'.
Proof.
  induction fuel as [|fuel IH]; intros s buf cpos s' buf' n e Hs HR; [discriminate|].
  cbn [readLoop] in HR.
  assert (Hgo : forall s1, state_ok s1 ->
            (let '(s2, buf2, cpos2, returned) :=
               readBits (Z.to_nat (nBits s1)) s1 buf cpos in
             if returned then Some (s2, buf2, cpos2, None)
             else readLoop fuel s2 buf2 cpos2) = Some (s', buf', n, e) ->
            state_ok s').
  { intros s1 Hs1 H1.
    pose proof (readBits_state_ok (Z.to_nat (nBits s1)) s1 buf cpos Hs1) as Hb.
    destruct (readBits _ s1 buf cpos) as [[[s2 buf2] cpos2] [|]]; cbn [fst] in Hb.
    - injection H1 as <- _ _ _. exact Hb.
    - eapply IH; eassumption. }
  destruct (nBits s =? 0).
  - destruct (r s) as [|c rest]; cbn [ReadByte] in HR.
    + injection HR as <- _ _ _. exact Hs.
    + eapply Hgo; [|exact HR]. exact Hs.
  - eapply Hgo; [|exact HR]. exact Hs.
Qed.

Lemma reachable_state_ok s : reachable s -> state_ok s.
Proof.
  induction 1 as [src | s more _ IH | s bit buf cpos _ IH | s buf s' buf' n e _ IH HR].
  - left; reflexivity.
  - exact IH.
  - now apply decodeBit_state_ok.
  - unfold Read in HR. eapply readLoop_state_ok; eassumption.
Qed.

Lemma take_store_all (buf : list Z) vs :
  (length vs <= length buf)%nat -> take (length vs) (store buf 0 vs) = vs.
Proof. intros H. apply (take_store vs buf 0). exact H. Qed.

Lemma read_bytewise_spec n bytes : forall s,
  nBits s = 0 -> r s = [] -> (8 <= n)%nat ->
  exists s1,
    read_bytewise n s bytes = Some (s1, fst (run (pst s) (bytes_bits bytes))) /\
    pst s1 = snd (run (pst s) (bytes_bits bytes)) /\
    nBits s1 = 0 /\ r s1 = [].
Proof.
  induction bytes as [|c rest IH]; intros s Hn Hr Hlen.
  - exists s. simpl. repeat split; assumption.
  - cbn [read_bytewise].
    assert (Hav : avail (supply s [c]) = bits_be 8 c).
    { unfold avail, supply. cbn [nBits b r set_r]. rewrite Hn, Hr.
      reflexivity. }
    destruct (Read_spec (supply s [c]) (repeat 0 n)
                (fst (run (pst s) (bits_be 8 c)))
                (snd (run (pst s) (bits_be 8 c))) [])
      as (s' & HR & Hp & Ha & Hn').
    { cbn [supply nBits set_r]. lia. }
    { rewrite Hav. apply consume_all. rewrite repeat_length, length_bits_be. lia. }
    rewrite HR.
    destruct (avail_nil s' (proj1 Hn') Ha) as (Hn0 & Hr0).
    destruct (IH s' Hn0 Hr0 Hlen) as (s1 & Hrb & Hp1 & Hn1 & Hr1).
    rewrite Hrb. exists s1.
    change (bytes_bits (c :: rest)) with (bits_be 8 c ++ bytes_bits rest).
    rewrite run_app. cbn [fst snd]. rewrite <- Hp.
    split; [|auto].
    pose proof (run_length (bits_be 8 c) (pst s)) as Hl.
    rewrite length_bits_be in Hl.
    rewrite take_store_all by (rewrite repeat_length; lia).
    reflexivity.
Qed.

Lemma read_at_once_spec n bytes s :
  nBits s = 0 -> r s = [] -> (8 * length bytes <= n)%nat ->
  exists s2,
    read_at_once n s bytes = Some (s2, fst (run (pst s) (bytes_bits bytes))) /\
    pst s2 = snd (run (pst s) (bytes_bits bytes)) /\
    nBits s2 = 0 /\ r s2 = [].
Proof.
  intros Hn Hr Hlen. unfold read_at_once.
  assert (Hav : avail (supply s bytes) = bytes_bits bytes).
  { unfold avail, supply. cbn [nBits b r set_r]. rewrite Hn, Hr. reflexivity. }
  destruct (Read_spec (supply s bytes) (repeat 0 n)
              (fst (run (pst s) (bytes_bits bytes)))
              (snd (run (pst s) (bytes_bits bytes))) [])
    as (s' & HR & Hp & Ha & Hn').
  { cbn [supply nBits set_r]. lia. }
  { rewrite Hav. apply consume_all. rewrite repeat_length, length_bytes_bits. lia. }
  rewrite HR. exists s'.
  destruct (avail_nil s' (proj1 Hn') Ha) as (Hn0 & Hr0).
  split; [|auto].
  pose proof (run_length (bytes_bits bytes) (pst s)) as Hl.
  rewrite length_bytes_bits in Hl.
  rewrite take_store_all by (rewrite repeat_length; lia).
  reflexivity.
Qed.

End DecoderInvariants.

Section RoundTrip.

Lemma run_first v rest :
  in_range v ->
  exists vs, fst (run parse0 (spec_codeword v ++ rest)) = Z.abs v :: vs.
Proof.
  intros Hr. destruct (Z.eq_dec v 0) as [->|Hv].
  - change (spec_codeword 0 ++ rest) with (true :: rest).
    unfold parse0. cbn [run]. rewrite parseBit_one_alone.
    destruct (run _ rest) as [vs q]. now exists vs.
  - unfold parse0. rewrite run_codeword by assumption. eauto.
Qed.

Lemma deltas_flat start j p :
  0 <= p < 2 ^ 63 ->
  deltas start (repeat start j ++ [start + p]) = repeat 0 j ++ [p].
Proof.
  intros Hp. induction j as [|j IH]; simpl.
  - replace (start + p - start) with p by lia. now rewrite i64_small by lia.
  - rewrite IH. replace (start - start) with 0 by lia. reflexivity.
Qed.

Lemma flat_codewords j p :
  flat_map spec_codeword (repeat 0 j ++ [p]) = repeat true j ++ spec_codeword p.
Proof.
  induction j as [|j IH]; simpl.
  - apply app_nil_r.
  - now rewrite IH.
Qed.

Lemma run_ones j rest :
  run parse0 (repeat true j ++ rest)
  = (repeat 0 j ++ fst (run parse0 rest), snd (run parse0 rest)).
Proof.
  induction j as [|j IH].
  - simpl. now destruct (run parse0 rest).
  - cbn [repeat app run]. unfold parse0 at 1. rewrite parseBit_one_alone.
    fold parse0. rewrite IH. reflexivity.
Qed.

Lemma run_padding v z k :
  0 <= z -> z + Z.of_nat k < 2 ^ 63 ->
  fst (run (mkParse COUNTING_ZEROS v z) (repeat false k)) = [].
Proof.
  intros Hz Hk.
  rewrite <- (app_nil_r (repeat false k)), run_zeros by assumption.
  reflexivity.
Qed.

Lemma sums_flat start j p :
  is_int start -> is_int (start + p) ->
  sums start (repeat 0 j ++ [p]) = repeat start j ++ [start + p].
Proof.
  unfold is_int. intros Hs Hp. induction j as [|j IH]; simpl.
  - now rewrite i64_small by lia.
  - rewrite Z.add_0_r, i64_small by lia. now rewrite IH.
Qed.

Lemma in_range_flat j p :
  0 <= p <= 2 ^ 31 - 2 -> Forall in_range (repeat 0 j ++ [p]).
Proof.
  intros Hp. apply Forall_app. split.
  - induction j; simpl; constructor; [unfold in_range; simpl; lia | assumption].
  - constructor; [unfold in_range; lia | constructor].
Qed.

End RoundTrip.

(** C1, on the code. A single value in range is encoded and the bytes are
    read back into a slice with at least one slot: the first value read is
    the magnitude [|v|] of the encoded value. It is [v] for [v >= 0]; for a
    negative [v] it is [- v]: the sign is lost. *)
Theorem C1_first_value_is_magnitude v buf :
  in_range v -> (1 <= length buf)%nat ->
  exists bytes s' buf' n err,
    encode [v] = Some bytes /\
    Read (NewExpGolombDecoder bytes) buf = Some (s', buf', n, err) /\
    (1 <= n)%nat /\
    buf' !! 0%nat = Some (Z.abs v).
Proof.
  intros Hr Hlen.
  destruct (encode_bits [v]) as (bytes & pad & He & _ & Hb).
  { constructor; [assumption | constructor]. }
  cbn [flat_map] in Hb. rewrite app_nil_r in Hb.
  destruct (consume (length buf) parse0 (bytes_bits bytes)) as [[vs q] rem] eqn:Hc.
  destruct (Read_spec (NewExpGolombDecoder bytes) buf vs q rem)
    as (s' & HR & _); [simpl; lia | exact Hc |].
  destruct (run_first v (repeat false pad) Hr) as (tl & Hrun).
  rewrite <- Hb, (consume_run _ _ _ _ _ _ Hc) in Hrun. cbn [fst] in Hrun.
  destruct (consume_length _ _ _ _ _ _ Hc) as (_ & _ & Hfull & _).
  destruct vs as [|x vs].
  - destruct rem as [|c rem].
    + simpl in Hrun. discriminate.
    + specialize (Hfull ltac:(discriminate)). simpl in Hfull. lia.
  - injection Hrun as -> _.
    exists bytes, s', (store buf 0 (Z.abs v :: vs)), (length (Z.abs v :: vs)).
    eexists. split; [exact He|]. split; [exact HR|].
    split; [simpl; lia|]. apply store_lookup_first. lia.
Qed.

Lemma C1_first_value_is_magnitude_witness :
  in_range (-1) /\ (1 <= length [0])%nat /\
  exists bytes s' buf' n err,
    encode [-1] = Some bytes /\
    Read (NewExpGolombDecoder bytes) [0] = Some (s', buf', n, err) /\
    buf' !! 0%nat = Some 1.
Proof.
  assert (Hr : in_range (-1)) by (vm_compute; congruence).
  assert (Hl : (1 <= length [0])%nat) by (simpl; lia).
  split; [exact Hr|]. split; [exact Hl|].
  destruct (C1_first_value_is_magnitude (-1) [0] Hr Hl)
    as (bytes & s' & buf' & n & err & He & HR & _ & Hv).
  exists bytes, s', buf', n, err. auto.
Defined.

(** C2, on the code. In [SHIFTING_BITS] the bit that brings the shift
    count from 1 to 0 writes [accumulator - 1] to the caller's slice at once
    and sets the state to [COUNTING_ZEROS]; no state [READING_SIGN] follows.
    So the codeword 0101 of -1 is read as the value 1, and its sign bit as
    the one-bit codeword of a further value 0. *)
Theorem C2_shift_completes_without_sign src cur a n bit buf cpos :
  decodeBit (mkDecoder src cur SHIFTING_BITS a 1 n) bit buf cpos
  = (mkDecoder src cur COUNTING_ZEROS
       (i64 (Z.lor (i64 (Z.shiftl a 1)) bit - 1)) 0 n,
     <[cpos := i64 (Z.lor (i64 (Z.shiftl a 1)) bit - 1)]> buf,
     S cpos)
  /\ encode [-1] = Some [80]
  /\ Read (NewExpGolombDecoder [80]) [0; 0; 0]
     = Some (mkDecoder [] 0 COUNTING_ZEROS 1 4 0, [1; 0; 0], 2%nat, Some EOF).
Proof.
  split; [reflexivity|]. split; vm_compute; reflexivity.
Qed.

(** C3 (amended). When every element of the sequence equals [start],
    except that the last may exceed it by at most [2 ^ 31 - 2],
    [DeltaDecode start (DeltaEncode start values)] is [values]. *)
Theorem C3_delta_roundtrip_amended start values :
  is_int start -> Forall is_int values -> flat_then_step start values ->
  exists bytes,
    DeltaEncode start values = Some bytes /\
    DeltaDecode start bytes = Some values.
Proof.
  intros Hs Hv [->|(j & p & Hp & ->)].
  - exists []. split; reflexivity.
  - apply Forall_app in Hv. destruct Hv as (_ & Hlast).
    inversion Hlast as [|? ? Hip _]; subst.
    rewrite DeltaEncode_encode, deltas_flat by lia.
    destruct (encode_bits (repeat 0 j ++ [p]) (in_range_flat j p Hp))
      as (bytes & pad & He & Hpad & Hb).
    exists bytes. split; [exact He|].
    rewrite DeltaDecode_spec, Hb, flat_codewords, <- app_assoc, run_ones.
    cbn [fst].
    assert (Hrun : fst (run parse0 (spec_codeword p ++ repeat false pad)) = [p]).
    { destruct (Z.eq_dec p 0) as [->|Hne].
      - change (spec_codeword 0 ++ repeat false pad) with (true :: repeat false pad).
        unfold parse0. cbn [run]. rewrite parseBit_one_alone.
        pose proof (run_padding 0 0 pad ltac:(lia) ltac:(lia)) as Hz.
        destruct (run _ (repeat false pad)) as [vs q]. cbn [fst] in *. now subst.
      - unfold parse0. rewrite run_codeword by (unfold in_range; lia).
        cbn [fst]. rewrite Z.abs_eq by lia.
        destruct (Z.ltb_spec p 0); [lia|].
        change (false :: repeat false pad) with (repeat false (S pad)).
        rewrite run_padding by lia. reflexivity. }
    rewrite Hrun. now rewrite sums_flat.
Qed.

Lemma C3_delta_roundtrip_amended_witness :
  is_int 10 /\ Forall is_int [10; 10; 13] /\ flat_then_step 10 [10; 10; 13] /\
  exists bytes,
    DeltaEncode 10 [10; 10; 13] = Some bytes /\
    DeltaDecode 10 bytes = Some [10; 10; 13].
Proof.
  assert (Hs : is_int 10) by (vm_compute; split; congruence).
  assert (Hv : Forall is_int [10; 10; 13])
    by (repeat constructor; vm_compute; congruence).
  assert (Hf : flat_then_step 10 [10; 10; 13])
    by (right; exists 2%nat, 3; split; [lia | reflexivity]).
  split; [exact Hs|]. split; [exact Hv|]. split; [exact Hf|].
  exact (C3_delta_roundtrip_amended 10 [10; 10; 13] Hs Hv Hf).
Defined.

(** C3 as stated fails outside the encoder's range: the difference
    [2 ^ 31 - 1] comes back as [2 ^ 29 - 1]. *)
Lemma C3_counterexample :
  exists bytes,
    DeltaEncode 0 [2 ^ 31 - 1] = Some bytes /\
    DeltaDecode 0 bytes <> Some [2 ^ 31 - 1].
Proof.
  exists [0; 0; 0; 4; 0; 0; 0; 0]. split; [vm_compute; reflexivity|].
  vm_compute. discriminate.
Qed.

(** C8. From any state in which the decoder has used up its input, also in
    the middle of a codeword, reading further input one byte per call gives
    the values, and ends in the parse fields, of reading it in one call. *)
Theorem C8_resumable s bytes n m :
  nBits s = 0 -> r s = [] ->
  (8 <= n)%nat -> (8 * length bytes <= m)%nat ->
  exists s1 s2 vs,
    read_bytewise n s bytes = Some (s1, vs) /\
    read_at_once m s bytes = Some (s2, vs) /\
    pst s1 = pst s2 /\
    vs = fst (run (pst s) (bytes_bits bytes)).
Proof.
  intros Hn Hr Hlen Hm.
  destruct (read_bytewise_spec n bytes s Hn Hr Hlen) as (s1 & H1 & Hp1 & _).
  destruct (read_at_once_spec m bytes s Hn Hr Hm) as (s2 & H2 & Hp2 & _).
  exists s1, s2, (fst (run (pst s) (bytes_bits bytes))).
  split; [exact H1|]. split; [exact H2|]. split; [congruence | reflexivity].
Qed.

Lemma C8_resumable_witness :
  nBits (NewExpGolombDecoder []) = 0 /\ r (NewExpGolombDecoder []) = [] /\
  (8 <= 8)%nat /\ (8 * length [163; 128] <= 16)%nat /\
  exists s1 s2 vs,
    read_bytewise 8 (NewExpGolombDecoder []) [163; 128] = Some (s1, vs) /\
    read_at_once 16 (NewExpGolombDecoder []) [163; 128] = Some (s2, vs).
Proof.
  assert (H1 : nBits (NewExpGolombDecoder []) = 0) by reflexivity.
  assert (H2 : r (NewExpGolombDecoder []) = []) by reflexivity.
  assert (H3 : (8 <= 8)%nat) by lia.
  assert (H4 : (8 * length [163; 128] <= 16)%nat) by (simpl; lia).
  split; [exact H1|]. split; [exact H2|]. split; [exact H3|]. split; [exact H4|].
  destruct (C8_resumable (NewExpGolombDecoder []) [163; 128] 8 16 H1 H2 H3 H4)
    as (s1 & s2 & vs & Ha & Hb & _).
  exists s1, s2, vs. auto.
Defined.

(** C9. [Read] always returns. When it returns the end signal the source
    and the current byte are used up, the count is the number of values
    the bits read completed (none, for a byte of zeros), those values are
    in the slice, and the parse fields are the ones the last bit left.
    [DeltaDecode] returns the running sums of the values completed by the
    bits of its input, and nothing for a codeword left unfinished. *)
Theorem C9_exhaustion s buf base compressed :
  0 <= nBits s <= 8 ->
  (exists s' buf' n err,
     Read s buf = Some (s', buf', n, err) /\
     (err = None -> n = length buf /\ avail s' <> []) /\
     (err = Some EOF ->
      r s' = [] /\ nBits s' = 0 /\
      n = length (fst (run (pst s) (avail s))) /\
      take n buf' = fst (run (pst s) (avail s)) /\
      pst s' = snd (run (pst s) (avail s)))) /\
  Read (NewExpGolombDecoder [0]) [0]
  = Some (mkDecoder [] 0 COUNTING_ZEROS 0 8 0, [0], 0%nat, Some EOF) /\
  DeltaDecode base compressed
  = Some (sums base (fst (run parse0 (bytes_bits compressed)))).
Proof.
  intros Hn. split; [|split; [reflexivity | apply DeltaDecode_spec]].
  destruct (consume (length buf) (pst s) (avail s)) as [[vs q] rem] eqn:Hc.
  destruct (Read_spec s buf vs q rem Hn Hc) as (s' & HR & Hp & Ha & Hn').
  destruct (consume_length _ _ _ _ _ _ Hc) as (Hl1 & _ & Hl3 & _).
  pose proof (consume_run _ _ _ _ _ _ Hc) as Hrun.
  exists s', (store buf 0 vs), (length vs). eexists.
  split; [exact HR|]. split.
  - intros He. destruct rem as [|c rem]; [discriminate|].
    split; [apply Hl3; discriminate | rewrite Ha; discriminate].
  - intros He. destruct rem as [|c rem]; [|discriminate].
    destruct (avail_nil s' (proj1 Hn') Ha) as (Hn0 & Hr0).
    rewrite Hrun. simpl. rewrite app_nil_r.
    split; [exact Hr0|]. split; [exact Hn0|]. split; [reflexivity|].
    split; [now apply take_store_all | exact Hp].
Qed.

Lemma C9_exhaustion_witness :
  0 <= nBits (NewExpGolombDecoder [163; 128]) <= 8 /\
  DeltaDecode 10 [163; 128]
  = Some (sums 10 (fst (run parse0 (bytes_bits [163; 128])))).
Proof.
  assert (Hn : 0 <= nBits (NewExpGolombDecoder [163; 128]) <= 8)
    by (simpl; lia).
  split; [exact Hn|].
  exact (proj2 (proj2 (C9_exhaustion (NewExpGolombDecoder [163; 128]) [0]
                         10 [163; 128] Hn))).
Defined.

(** C10. In every reachable decoder state the state field is
    [COUNTING_ZEROS] or [SHIFTING_BITS], never [READING_SIGN]; on such a
    state [decodeBit] is the function with the [READING_SIGN] case
    removed. *)
Theorem C10_reading_sign_unreachable s :
  reachable s ->
  (state s = COUNTING_ZEROS \/ state s = SHIFTING_BITS) /\
  state s <> READING_SIGN /\
  forall bit buf cpos, decodeBit s bit buf cpos = decodeBit_live s bit buf cpos.
Proof.
  intros Hs. pose proof (reachable_state_ok s Hs) as Hok.
  split; [exact Hok|]. split.
  - destruct Hok as [H|H]; rewrite H; discriminate.
  - intros bit buf cpos. unfold decodeBit, decodeBit_live.
    destruct Hok as [H|H]; rewrite H; reflexivity.
Qed.

Lemma C10_reading_sign_unreachable_witness :
  reachable (mkDecoder [] 0 COUNTING_ZEROS 1 4 0) /\
  state (mkDecoder [] 0 COUNTING_ZEROS 1 4 0) <> READING_SIGN.
Proof.
  assert (Hr : reachable (mkDecoder [] 0 COUNTING_ZEROS 1 4 0)).
  { apply (reach_read (NewExpGolombDecoder [80]) [0; 0; 0] _ [1; 0; 0] 2%nat
             (Some EOF)); [apply reach_new | vm_compute; reflexivity]. }
  split; [exact Hr|].
  exact (proj1 (proj2 (C10_reading_sign_unreachable _ Hr))).
Defined.

(** * Further properties *)

(** ** [bitLen] and [add] beyond the documented range *)

Section WideRange.

Ltac split_if :=
  match goal with
  | |- context [if ?a <? ?c then _ else _] => destruct (Z.ltb_spec a c)
  | |- context [if ?a <=? ?c then _ else _] => destruct (Z.leb_spec a c)
  end.

Lemma bitLen_high x :
  2 ^ 31 < x -> Z.shiftr x 32 < 2 ^ 31 ->
  bitLen x = bitLen (Z.shiftr x 32) + 32.
Proof.
  intros Hx Hs. unfold bitLen.
  destruct (Z.ltb_spec (2 ^ 31) x); [|lia].
  destruct (Z.ltb_spec (2 ^ 31) (Z.shiftr x 32)); [lia|].
  repeat split_if; lia.
Qed.

Lemma bitLen_above x :
  2 ^ 31 < x < 2 ^ 63 -> bitLen x = Z.log2 x + 1.
Proof.
  intros Hx.
  assert (Hs : 0 <= Z.shiftr x 32 < 2 ^ 31).
  { rewrite Z.shiftr_div_pow2 by lia. split.
    - apply Z.div_pos; lia.
    - apply Z.div_lt_upper_bound; lia. }
  rewrite bitLen_high by lia.
  destruct (Z.eq_dec (Z.shiftr x 32) 0) as [H0|H0].
  - rewrite H0. change (bitLen 0) with 0.
    rewrite Z.shiftr_div_pow2 in H0 by lia.
    apply Z.div_small_iff in H0; [|lia].
    rewrite (Z.log2_unique x 31); lia.
  - rewrite bitLen_log2 by lia.
    rewrite Z.log2_shiftr by lia.
    assert (2 ^ 32 <= x).
    { destruct (Z.lt_ge_cases x (2 ^ 32)) as [Hlt|]; [|assumption].
      exfalso. apply H0. rewrite Z.shiftr_div_pow2 by lia.
      apply Z.div_small. lia. }
    assert (Z.log2 (2 ^ 32) <= Z.log2 x) by (apply Z.log2_le_mono; lia).
    rewrite Z.log2_pow2 in * by lia. lia.
Qed.

Lemma add_general_high s v :
  enc_inv s -> 2 ^ 31 <= Z.abs v <= 2 ^ 63 - 2 ->
  enc_inv (add_general s v) /\
  stream (add_general s v) = stream s ++ spec_codeword v.
Proof.
  intros Hs Hr.
  set (m := Z.abs v + 1).
  assert (Hm0 : 2 ^ 31 < m < 2 ^ 63) by (subst m; lia).
  pose proof (Z.log2_spec m ltac:(lia)) as Hm.
  replace (Z.succ (Z.log2 m)) with (Z.log2 m + 1) in Hm by lia.
  assert (Hn : 31 <= Z.log2 m <= 62).
  { split.
    - assert (Z.log2 (2 ^ 31) <= Z.log2 m) by (apply Z.log2_le_mono; lia).
      rewrite Z.log2_pow2 in * by lia. lia.
    - assert (Z.log2 m < 63) by (apply Z.log2_lt_pow2; lia). lia. }
  unfold add_general.
  assert (Habs : (if v <? 0 then i64 (- v) else v) = Z.abs v).
  { destruct (Z.ltb_spec v 0); [rewrite i64_small|]; lia. }
  assert (Hsign : (if v <? 0 then 1 else 0) = spec_sign v).
  { unfold spec_sign. destruct (Z.ltb_spec v 0), (Z.ltb_spec 0 v); lia. }
  rewrite Habs, Hsign.
  rewrite (u64_small (Z.abs v)) by lia.
  fold m. rewrite (u64_small m) by lia.
  rewrite bitLen_above by lia.
  rewrite (u64_small (Z.log2 m + 1)) by lia.
  replace (Z.log2 m + 1 - 1) with (Z.log2 m) by lia.
  rewrite (u64_small (Z.log2 m)) by lia.
  rewrite (u64_small (Z.log2 m + 2)) by lia.
  destruct (addZeroBits_spec s (Z.log2 m) Hs ltac:(lia)) as (Hz & Hzs).
  assert (Hshl : shl64 m 1 = Z.shiftl m 1).
  { unfold shl64. simpl (64 <=? 1). cbv iota.
    apply u64_small. rewrite Z.shiftl_mul_pow2 by lia. lia. }
  rewrite Hshl.
  assert (Hb : 0 <= Z.lor (Z.shiftl m 1) (spec_sign v) < 2 ^ (Z.log2 m + 2)).
  { apply lor_range; [lia | |].
    - rewrite Z.shiftl_mul_pow2 by lia.
      replace (Z.log2 m + 2) with (Z.log2 m + 1 + 1) by lia.
      rewrite (Z.pow_add_r 2 (Z.log2 m + 1) 1) by lia. lia.
    - assert (2 ^ 2 <= 2 ^ (Z.log2 m + 2)) by (apply Z.pow_le_mono_r; lia).
      unfold spec_sign. destruct (0 <? v); lia. }
  split.
  - apply addBits_inv; [assumption | lia].
  - rewrite addBits_stream by (assumption || lia).
    rewrite Hzs, <- app_assoc.
    unfold spec_codeword, spec_nbits, bitlength. fold m.
    destruct (Z.eqb_spec v 0); [lia|].
    replace (Z.log2 m + 1 - 1) with (Z.log2 m) by lia. reflexivity.
Qed.

Lemma add_wide s v :
  enc_inv s -> in_wide v ->
  enc_inv (add s v) /\ stream (add s v) = stream s ++ spec_codeword v.
Proof.
  intros Hs (Hr & Hne).
  destruct (Z.le_gt_cases (Z.abs v) (2 ^ 31 - 2)) as [Hlo|Hhi].
  - now apply add_spec.
  - unfold add.
    repeat match goal with
    | |- context [if ?a =? ?c then _ else _] =>
        destruct (Z.eqb_spec a c); [lia|]
    end.
    apply add_general_high; [assumption | lia].
Qed.

Lemma Write_wide l : forall s,
  enc_inv s -> Forall in_wide l ->
  enc_inv (Write s l) /\
  stream (Write s l) = stream s ++ flat_map spec_codeword l.
Proof.
  induction l as [|v l IH]; intros s Hs Hl.
  - simpl. now rewrite app_nil_r.
  - inversion Hl; subst.
    destruct (add_wide s v Hs) as (Hi & Hst); [assumption|].
    destruct (IH (add s v) Hi) as (Hi' & Hst'); [assumption|].
    split; [exact Hi'|].
    change (Write s (v :: l)) with (Write (add s v) l).
    rewrite Hst', Hst, <- app_assoc. reflexivity.
Qed.

End WideRange.

(** ** The encoder's helpers and its sink *)

Section EncoderHelpers.

Lemma shl64_zero k : shl64 0 k = 0.
Proof.
  unfold shl64, u64. destruct (64 <=? k); [reflexivity|].
  now rewrite Z.shiftl_0_l.
Qed.

Lemma shr64_zero k : shr64 0 k = 0.
Proof.
  unfold shr64. destruct (64 <=? k); [reflexivity|]. apply Z.shiftr_0_l.
Qed.

Lemma sunk_emitBits s : sunk (emitBits s) = (sunk s + 8)%nat.
Proof.
  unfold sunk, emitBits. cbn [out].
  now rewrite written_Write, length_app.
Qed.

Lemma sunk_addBits s x n :
  exists k, sunk (addBits s x n) = (sunk s + 8 * k)%nat.
Proof.
  unfold addBits. destruct (n <? bitsleft s).
  - exists 0%nat. unfold sunk. cbn [out]. lia.
  - exists 1%nat. unfold sunk, emitBits. cbn [out].
    rewrite written_Write, length_app. simpl. lia.
Qed.

Lemma sunk_zeroWords fuel : forall s nz,
  exists k, sunk (fst (zeroWords fuel s nz)) = (sunk s + 8 * k)%nat.
Proof.
  induction fuel as [|fuel IH]; intros s nz; simpl.
  - exists 0%nat. lia.
  - destruct (egWordBits <=? nz).
    + destruct (IH (emitBits s) (u64 (nz - egWordBits))) as (k & Hk).
      exists (S k). rewrite Hk, sunk_emitBits. lia.
    + exists 0%nat. simpl. lia.
Qed.

Lemma sunk_addZeroBits s n :
  exists k, sunk (addZeroBits s n) = (sunk s + 8 * k)%nat.
Proof.
  unfold addZeroBits. destruct (n <? bitsleft s).
  - exists 0%nat. unfold sunk. cbn [out]. lia.
  - destruct (sunk_zeroWords
                (Z.to_nat (u64 (n - bitsleft s) / egWordBits))
                (emitBits s) (u64 (n - bitsleft s))) as (k & Hk).
    destruct (zeroWords _ (emitBits s) _) as [s1 nz1]. cbn [fst] in Hk.
    exists (S k). unfold sunk in *. cbn [out]. rewrite Hk.
    fold (sunk (emitBits s)). rewrite sunk_emitBits. unfold sunk. lia.
Qed.

Lemma sunk_add s v : exists k, sunk (add s v) = (sunk s + 8 * k)%nat.
Proof.
  unfold add.
  repeat match goal with
  | |- context [if ?a =? ?c then _ else _] =>
      destruct (a =? c); [apply sunk_addBits|]
  end.
  unfold add_general.
  match goal with
  | |- context [addBits (addZeroBits s ?n) ?x ?m] =>
      destruct (sunk_addZeroBits s n) as (k1 & H1);
      destruct (sunk_addBits (addZeroBits s n) x m) as (k2 & H2)
  end.
  exists (k1 + k2)%nat. rewrite H2, H1. lia.
Qed.

Lemma sunk_Write l : forall s, exists k, sunk (Write s l) = (sunk s + 8 * k)%nat.
Proof.
  induction l as [|v l IH]; intros s.
  - exists 0%nat. simpl. lia.
  - change (Write s (v :: l)) with (Write (add s v) l).
    destruct (IH (add s v)) as (k1 & H1).
    destruct (sunk_add s v) as (k2 & H2).
    exists (k2 + k1)%nat. rewrite H1, H2. lia.
Qed.

Lemma length_stream s :
  enc_inv s ->
  Z.of_nat (length (stream s)) = 8 * Z.of_nat (sunk s) + (egWordBits - bitsleft s).
Proof.
  intros (Hbl & _). unfold egWordBits in *.
  unfold stream, pending, sunk, egWordBits.
  rewrite length_app, length_bytes_bits, length_bits_be. lia.
Qed.

End EncoderHelpers.

(** ** [Read] on slices of any size *)

Section ReadAnySlice.

Lemma consume_take l room p vs q rem :
  consume room p l = (vs, q, rem) -> vs = take room (fst (run p l)).
Proof.
  intros Hc.
  destruct (consume_length _ _ _ _ _ _ Hc) as (Hl & _ & Hfull & _).
  rewrite (consume_run _ _ _ _ _ _ Hc). cbn [fst].
  destruct rem as [|c rem].
  - simpl. rewrite app_nil_r. symmetry. apply take_ge. lia.
  - rewrite <- (Hfull ltac:(discriminate)).
    symmetry. apply take_app_length.
Qed.

Lemma store_lookup_ge vs : forall (buf : list Z) cpos i,
  (cpos + length vs <= i)%nat -> store buf cpos vs !! i = buf !! i.
Proof.
  induction vs as [|v vs IH]; intros buf cpos i Hi; simpl in *; [reflexivity|].
  rewrite IH by lia. apply list_lookup_insert_ne. lia.
Qed.

Lemma consume_none p l : consume 0 p l = ([], p, l).
Proof. destruct l; reflexivity. Qed.

Lemma bytes_bits_zeros j : bytes_bits (repeat 0 j) = repeat false (8 * j).
Proof.
  induction j as [|j IH]; [reflexivity|].
  change (bytes_bits (repeat 0 (S j))) with (bits_be 8 0 ++ bytes_bits (repeat 0 j)).
  rewrite IH, bits_be_0, <- repeat_app. f_equal. lia.
Qed.

Lemma consume_zeros k : forall room v z,
  0 <= z -> z + Z.of_nat k < 2 ^ 63 ->
  consume (S room) (mkParse COUNTING_ZEROS v z) (repeat false k)
  = ([], mkParse COUNTING_ZEROS v (z + Z.of_nat k), []).
Proof.
  induction k as [|k IH]; intros room v z Hz Hk.
  - simpl. now rewrite Z.add_0_r.
  - cbn [repeat consume]. rewrite parseBit_zero, i64_small by lia.
    rewrite IH by lia. do 3 f_equal. lia.
Qed.

End ReadAnySlice.

(** ** What the decoder takes for a codeword *)

Section PlainCodewords.

Lemma run_plain c a rest :
  (fst c <= 61)%nat ->
  exists a',
    run (mkParse COUNTING_ZEROS a 0) (plain_codeword c ++ rest)
    = (plain_value c :: fst (run (mkParse COUNTING_ZEROS a' 0) rest),
       snd (run (mkParse COUNTING_ZEROS a' 0) rest)).
Proof.
  destruct c as [k x]. unfold plain_codeword, plain_value. cbn [fst snd].
  intros Hk. destruct k as [|k].
  - exists a. cbn [repeat app bits_be run]. rewrite parseBit_one_alone.
    change (2 ^ Z.of_nat 0) with 1. rewrite Z.mod_1_r.
    now destruct (run _ rest).
  - exists (1 * 2 ^ Z.of_nat (S k) + x mod 2 ^ Z.of_nat (S k) - 1).
    rewrite <- app_assoc, run_zeros by lia. rewrite Z.add_0_l.
    cbn [app run]. rewrite parseBit_delimiter by lia.
    assert (H61 : 2 ^ Z.of_nat (S k) <= 2 ^ 61) by (apply Z.pow_le_mono_r; lia).
    rewrite run_shift by lia. cbv zeta.
    rewrite Z.mul_1_l. reflexivity.
Qed.

Lemma run_plain_list cs pad : forall a,
  Forall (fun c => (fst c <= 61)%nat) cs -> Z.of_nat pad < 2 ^ 63 ->
  fst (run (mkParse COUNTING_ZEROS a 0)
           (flat_map plain_codeword cs ++ repeat false pad))
  = map plain_value cs.
Proof.
  induction cs as [|c cs IH]; intros a Hcs Hpad.
  - simpl. apply run_padding; lia.
  - inversion Hcs; subst. cbn [flat_map map]. rewrite <- app_assoc.
    destruct (run_plain c a (flat_map plain_codeword cs ++ repeat false pad))
      as (a' & Hrun); [assumption|].
    rewrite Hrun. cbn [fst]. now rewrite IH.
Qed.

Lemma length_sums ds : forall v, length (sums v ds) = length ds.
Proof. induction ds as [|d ds IH]; intros v; simpl; [reflexivity|]. now rewrite IH. Qed.

(** Values that are not positive: each comes back as its magnitude, a
    negative one followed by a 0 read from its sign bit. *)
Lemma run_nonpositive l pad : forall a,
  Forall (fun v => - (2 ^ 31 - 2) <= v <= 0) l -> (pad < 8)%nat ->
  fst (run (mkParse COUNTING_ZEROS a 0)
           (flat_map spec_codeword l ++ repeat false pad))
  = flat_map lost_sign l.
Proof.
  induction l as [|v l IH]; intros a Hl Hpad.
  - simpl. apply run_padding; lia.
  - inversion Hl as [|? ? Hv Hl']; subst. cbn [flat_map]. rewrite <- app_assoc.
    unfold lost_sign at 1. destruct (Z.eqb_spec v 0) as [->|Hne].
    + change (spec_codeword 0) with [true]. cbn [app run].
      rewrite parseBit_one_alone.
      specialize (IH a Hl' Hpad).
      destruct (run _ (flat_map spec_codeword l ++ repeat false pad)).
      cbn [fst] in *. now rewrite IH.
    + rewrite run_codeword by (unfold in_range; lia). cbn [fst].
      destruct (Z.ltb_spec v 0); [|lia].
      cbn [run]. rewrite parseBit_one_alone.
      specialize (IH (Z.abs v) Hl' Hpad).
      destruct (run _ (flat_map spec_codeword l ++ repeat false pad)).
      cbn [fst app] in *. rewrite IH. f_equal. lia.
Qed.

End PlainCodewords.

(** ** The further properties, stated *)

(** X1. With a 64-bit [uint], [bitLen] is the length of the binary numeral
    of every [x] from 1 below [2 ^ 63], except at [2 ^ 31], where it
    answers 31 for 32. *)
Theorem X1_bitLen_exact x :
  1 <= x < 2 ^ 63 ->
  bitLen x = if x =? 2 ^ 31 then 31 else Z.log2 x + 1.
Proof.
  intros Hx. destruct (Z.eqb_spec x (2 ^ 31)) as [->|Hne]; [reflexivity|].
  destruct (Z.lt_ge_cases x (2 ^ 31)).
  - apply bitLen_log2. lia.
  - apply bitLen_above. lia.
Qed.

Lemma X1_bitLen_exact_witness :
  1 <= 2 ^ 40 < 2 ^ 63 /\ bitLen (2 ^ 40) = 41.
Proof.
  assert (H : 1 <= 2 ^ 40 < 2 ^ 63) by lia.
  split; [exact H|]. exact (X1_bitLen_exact (2 ^ 40) H).
Defined.

(** X2. [add] keeps the encoder invariant and appends the codeword of the
    format for every value of magnitude up to [2 ^ 63 - 2] other than
    [2 ^ 31 - 1], well beyond the range the source documents. *)
Theorem X2_add_wide s v :
  enc_inv s -> in_wide v ->
  enc_inv (add s v) /\ stream (add s v) = stream s ++ spec_codeword v.
Proof.
  intros Hs (Hr & Hne).
  destruct (Z.le_gt_cases (Z.abs v) (2 ^ 31 - 2)) as [Hlo|Hhi].
  - now apply add_spec.
  - unfold add.
    repeat match goal with
    | |- context [if ?a =? ?c then _ else _] =>
        destruct (Z.eqb_spec a c); [lia|]
    end.
    apply add_general_high; [assumption | lia].
Qed.

Lemma X2_add_wide_witness :
  enc_inv (NewExpGolombEncoder (mkWriter [] [])) /\ in_wide (- 2 ^ 40) /\
  stream (add (NewExpGolombEncoder (mkWriter [] [])) (- 2 ^ 40))
  = stream (NewExpGolombEncoder (mkWriter [] [])) ++ spec_codeword (- 2 ^ 40).
Proof.
  assert (Hs : enc_inv (NewExpGolombEncoder (mkWriter [] [])))
    by (repeat split; vm_compute; congruence).
  assert (Hv : in_wide (- 2 ^ 40)) by (split; vm_compute; congruence).
  split; [exact Hs|]. split; [exact Hv|].
  exact (proj2 (X2_add_wide _ _ Hs Hv)).
Defined.

(** X3. [Write] followed by [Close] on a new encoder yields bytes whose
    bits are the codewords of the values, in order and with nothing between
    them, followed by fewer than eight zero bits: as many bytes as the
    codewords need and no more. *)
Theorem X3_encode_bits l :
  Forall in_wide l ->
  exists bytes pad,
    encode l = Some bytes /\ (pad < 8)%nat /\
    bytes_bits bytes = flat_map spec_codeword l ++ repeat false pad /\
    (8 * length bytes = length (flat_map spec_codeword l) + pad)%nat.
Proof.
  intros Hr. unfold encode.
  set (e0 := NewExpGolombEncoder (mkWriter [] [])).
  destruct (Write_wide l e0 (enc_inv_new _) Hr) as (Hi & Hst).
  destruct (Close_spec _ Hi) as (s' & Hc & _ & _ & _ & Hfl & _ & Hbits).
  rewrite Hc.
  assert (Hb : bytes_bits (flushed (out s'))
               = flat_map spec_codeword l
                 ++ repeat false (Z.to_nat (8 * ((egWordBits - bitsleft (Write e0 l) + 7) / 8)
                                            - (egWordBits - bitsleft (Write e0 l))))).
  { rewrite Hfl, bytes_bits_app, Hbits, app_assoc.
    fold (stream (Write e0 l)).
    rewrite Hst. subst e0. rewrite stream_new. reflexivity. }
  eexists. eexists. split; [reflexivity|]. split; [|split; [exact Hb|]].
  - destruct Hi as (Hbl & _). unfold egWordBits in *.
    Z.div_mod_to_equations. lia.
  - rewrite <- length_bytes_bits, Hb, length_app, repeat_length. reflexivity.
Qed.

Lemma X3_encode_bits_witness :
  Forall in_wide [3; - 2 ^ 40; 0] /\
  exists bytes pad,
    encode [3; - 2 ^ 40; 0] = Some bytes /\ (pad < 8)%nat /\
    bytes_bits bytes = flat_map spec_codeword [3; - 2 ^ 40; 0] ++ repeat false pad.
Proof.
  assert (Hl : Forall in_wide [3; - 2 ^ 40; 0])
    by (repeat constructor; vm_compute; congruence).
  split; [exact Hl|].
  destruct (X3_encode_bits _ Hl) as (bytes & pad & He & Hp & Hb & _).
  exists bytes, pad. auto.
Defined.

(** X4. [DeltaEncode] never runs into the slice bound of
    [emitPartialBits]: for any start and values it returns the bytes of the
    encoder run on the successive differences, taken in [int] arithmetic. *)
Theorem X4_DeltaEncode_total start values :
  exists bytes,
    DeltaEncode start values = Some bytes /\
    encode (deltas start values) = Some bytes.
Proof.
  destruct (DeltaEncode_total start values) as (bytes & H).
  exists bytes. split; [exact H|]. now rewrite <- DeltaEncode_encode.
Qed.

(** X5. For up to 64 zeros [addZeroBits] leaves the encoder in the state
    [addBits] leaves it in when given the value 0 on as many bits. *)
Theorem X5_addZeroBits_addBits s n :
  enc_inv s -> 0 <= n <= 64 -> addZeroBits s n = addBits s 0 n.
Proof.
  intros (Hbl & _) Hn. unfold egWordBits in Hbl.
  unfold addZeroBits, addBits.
  destruct (Z.ltb_spec n (bitsleft s)).
  - now rewrite shl64_zero, Z.lor_0_r.
  - rewrite shr64_zero, Z.lor_0_r, shl64_zero.
    set (nz := u64 (n - bitsleft s)).
    assert (Hnz : nz = n - bitsleft s) by (subst nz; apply u64_small; lia).
    assert (Hq : nz / egWordBits = 0).
    { unfold egWordBits. apply Z.div_small. lia. }
    rewrite Hq. cbn [Z.to_nat zeroWords].
    destruct s as [d bl o ob]. reflexivity.
Qed.

Lemma X5_addZeroBits_addBits_witness :
  enc_inv (add (NewExpGolombEncoder (mkWriter [] [])) 1) /\ 0 <= 64 <= 64 /\
  addZeroBits (add (NewExpGolombEncoder (mkWriter [] [])) 1) 64
  = addBits (add (NewExpGolombEncoder (mkWriter [] [])) 1) 0 64.
Proof.
  assert (Hs : enc_inv (add (NewExpGolombEncoder (mkWriter [] [])) 1))
    by (repeat split; vm_compute; congruence).
  assert (Hn : 0 <= 64 <= 64) by lia.
  split; [exact Hs|]. split; [exact Hn|].
  exact (X5_addZeroBits_addBits _ 64 Hs Hn).
Defined.

(** X6. Before [Close] the sink is handed whole 8-byte words only: after
    [Write] of values whose codewords take [total] bits, a new encoder has
    written [8 * (total / 64)] bytes and holds [total mod 64] bits back. *)
Theorem X6_Write_words l :
  Forall in_wide l ->
  let s := Write (NewExpGolombEncoder (mkWriter [] [])) l in
  let total := Z.of_nat (length (flat_map spec_codeword l)) in
  Z.of_nat (sunk s) = 8 * (total / 64) /\
  egWordBits - bitsleft s = total mod 64.
Proof.
  intros Hl s total.
  destruct (Write_wide l _ (enc_inv_new (mkWriter [] [])) Hl) as (Hi & Hst).
  fold s in Hi, Hst.
  pose proof (length_stream s Hi) as Hlen.
  rewrite Hst, stream_new in Hlen. cbn [written flushed buffered app bytes_bits flat_map] in Hlen.
  fold total in Hlen.
  destruct (sunk_Write l (NewExpGolombEncoder (mkWriter [] []))) as (k & Hk).
  fold s in Hk. change (sunk (NewExpGolombEncoder (mkWriter [] []))) with 0%nat in Hk.
  destruct Hi as (Hbl & _). unfold egWordBits in *.
  assert (Hq : total = 64 * Z.of_nat k + (64 - bitsleft s)) by lia.
  assert (Hd : total / 64 = Z.of_nat k).
  { symmetry. apply (Z.div_unique total 64 (Z.of_nat k) (64 - bitsleft s)); lia. }
  assert (Hm : total mod 64 = 64 - bitsleft s).
  { symmetry. apply (Z.mod_unique total 64 (Z.of_nat k) (64 - bitsleft s)); lia. }
  split; lia.
Qed.

Lemma X6_Write_words_witness :
  Forall in_wide [2 ^ 40; 7] /\
  Z.of_nat (sunk (Write (NewExpGolombEncoder (mkWriter [] [])) [2 ^ 40; 7])) = 8.
Proof.
  assert (Hl : Forall in_wide [2 ^ 40; 7])
    by (repeat constructor; vm_compute; congruence).
  split; [exact Hl|].
  exact (proj1 (X6_Write_words _ Hl)).
Defined.

(** X7. A second [Close] writes nothing and changes nothing. *)
Theorem X7_Close_twice s s' :
  enc_inv s -> Close s = Some s' -> Close s' = Some s'.
Proof.
  intros Hs Hc.
  destruct (Close_spec s Hs) as (s1 & Hc1 & Hd & Hbl & Hb & _).
  rewrite Hc in Hc1. injection Hc1 as <-.
  unfold Close. rewrite Hbl, Z.eqb_refl.
  destruct s' as [d bl [bf fl] ob]. cbn in *. subst.
  unfold bw_Flush. cbn. now rewrite app_nil_r.
Qed.

Lemma X7_Close_twice_witness :
  enc_inv (add (NewExpGolombEncoder (mkWriter [] [])) 1) /\
  Close (add (NewExpGolombEncoder (mkWriter [] [])) 1)
  = Some (mkEncoder 0 64 (mkWriter [] [64]) (repeat 0 8)) /\
  Close (mkEncoder 0 64 (mkWriter [] [64]) (repeat 0 8))
  = Some (mkEncoder 0 64 (mkWriter [] [64]) (repeat 0 8)).
Proof.
  assert (Hs : enc_inv (add (NewExpGolombEncoder (mkWriter [] [])) 1))
    by (repeat split; vm_compute; congruence).
  assert (Hc : Close (add (NewExpGolombEncoder (mkWriter [] [])) 1)
               = Some (mkEncoder 0 64 (mkWriter [] [64]) (repeat 0 8)))
    by reflexivity.
  split; [exact Hs|]. split; [exact Hc|].
  exact (X7_Close_twice _ _ Hs Hc).
Defined.

(** X8. [Read] fills at most the slice it is given; the values it returns
    are the first values the unread bits decode to, as many as the slice
    has slots or all of them; the slots after them keep what they held; and
    when it returns no error the slice is full. *)
Theorem X8_Read_prefix s buf :
  0 <= nBits s <= 8 ->
  exists s' buf' n err,
    Read s buf = Some (s', buf', n, err) /\
    (n <= length buf)%nat /\ length buf' = length buf /\
    take n buf' = take (length buf) (fst (run (pst s) (avail s))) /\
    (forall i, (n <= i)%nat -> buf' !! i = buf !! i) /\
    (err = None -> n = length buf).
Proof.
  intros Hn.
  destruct (consume (length buf) (pst s) (avail s)) as [[vs q] rem] eqn:Hc.
  destruct (Read_spec s buf vs q rem Hn Hc) as (s' & HR & _).
  destruct (consume_length _ _ _ _ _ _ Hc) as (Hl & _ & Hfull & _).
  exists s', (store buf 0 vs), (length vs). eexists.
  split; [exact HR|]. split; [exact Hl|]. split; [apply length_store|].
  split; [|split].
  - rewrite take_store_all by exact Hl. now apply consume_take with q rem.
  - intros i Hi. apply store_lookup_ge. simpl. lia.
  - intros He. destruct rem; [discriminate|]. apply Hfull. discriminate.
Qed.

Lemma X8_Read_prefix_witness :
  0 <= nBits (NewExpGolombDecoder [163; 128]) <= 8 /\
  exists s' buf' n err,
    Read (NewExpGolombDecoder [163; 128]) [9; 9; 9; 9; 9]
    = Some (s', buf', n, err) /\
    (forall i, (n <= i)%nat -> buf' !! i = [9; 9; 9; 9; 9] !! i).
Proof.
  assert (Hn : 0 <= nBits (NewExpGolombDecoder [163; 128]) <= 8)
    by (simpl; lia).
  split; [exact Hn|].
  destruct (X8_Read_prefix (NewExpGolombDecoder [163; 128]) [9; 9; 9; 9; 9] Hn)
    as (s' & buf' & n & err & HR & _ & _ & _ & Hi & _).
  exists s', buf', n, err. auto.
Defined.

(** X9. Whatever the size of the slice, a call of [Read] loses and repeats
    nothing: the values of the bits unread before the call are the values
    returned followed by the values of the bits unread after it, and the
    end signal is returned exactly when no bit is left. *)
Theorem X9_Read_resume s buf s' buf' n err :
  0 <= nBits s <= 8 ->
  Read s buf = Some (s', buf', n, err) ->
  fst (run (pst s) (avail s)) = take n buf' ++ fst (run (pst s') (avail s')) /\
  snd (run (pst s) (avail s)) = snd (run (pst s') (avail s')) /\
  0 <= nBits s' <= 8 /\
  (err = Some EOF <-> avail s' = []).
Proof.
  intros Hn HR.
  destruct (consume (length buf) (pst s) (avail s)) as [[vs q] rem] eqn:Hc.
  destruct (Read_spec s buf vs q rem Hn Hc) as (s1 & HR1 & Hp & Ha & Hn1).
  rewrite HR in HR1. injection HR1 as -> -> -> ->.
  destruct (consume_length _ _ _ _ _ _ Hc) as (Hl & _).
  rewrite (consume_run _ _ _ _ _ _ Hc), Hp, Ha. cbn [fst snd].
  rewrite take_store_all by exact Hl.
  split; [reflexivity|]. split; [reflexivity|]. split; [exact Hn1|].
  destruct rem; split; intros H; congruence.
Qed.

Lemma X9_Read_resume_witness :
  0 <= nBits (NewExpGolombDecoder [163; 128]) <= 8 /\
  Read (NewExpGolombDecoder [163; 128]) [0]
  = Some (mkDecoder [128] 163 0 0 0 7, [0], 1%nat, None) /\
  fst (run (pst (NewExpGolombDecoder [163; 128]))
           (avail (NewExpGolombDecoder [163; 128])))
  = take 1 [0]
    ++ fst (run (pst (mkDecoder [128] 163 0 0 0 7))
                (avail (mkDecoder [128] 163 0 0 0 7))).
Proof.
  assert (Hn : 0 <= nBits (NewExpGolombDecoder [163; 128]) <= 8)
    by (simpl; lia).
  assert (HR : Read (NewExpGolombDecoder [163; 128]) [0]
               = Some (mkDecoder [128] 163 0 0 0 7, [0], 1%nat, None))
    by reflexivity.
  split; [exact Hn|]. split; [exact HR|].
  exact (proj1 (X9_Read_resume _ _ _ _ _ _ Hn HR)).
Defined.

(** X10. Given a slice of length 0, [Read] returns the count 0, decodes no
    bit and keeps every unread bit (a byte it pulls from the source stays
    in the decoder); it signals the end only if no bit was left. *)
Theorem X10_Read_no_room s :
  0 <= nBits s <= 8 ->
  exists s',
    Read s [] = Some (s', [], 0%nat,
                      match avail s with [] => Some EOF | _ => None end) /\
    pst s' = pst s /\ avail s' = avail s.
Proof.
  intros Hn.
  destruct (Read_spec s [] [] (pst s) (avail s) Hn (consume_none _ _))
    as (s' & HR & Hp & Ha & _).
  exists s'. auto.
Qed.

Lemma X10_Read_no_room_witness :
  0 <= nBits (NewExpGolombDecoder [163; 128]) <= 8 /\
  exists s',
    Read (NewExpGolombDecoder [163; 128]) [] = Some (s', [], 0%nat, None) /\
    avail s' = avail (NewExpGolombDecoder [163; 128]).
Proof.
  assert (Hn : 0 <= nBits (NewExpGolombDecoder [163; 128]) <= 8)
    by (simpl; lia).
  split; [exact Hn|].
  destruct (X10_Read_no_room (NewExpGolombDecoder [163; 128]) Hn)
    as (s' & HR & _ & Ha).
  exists s'. split; [exact HR | exact Ha].
Defined.

(** X11. Between codewords, zero bytes are never taken for a value: a
    decoder in [COUNTING_ZEROS] whose source holds only zero bytes returns
    no value and the end signal, with its zero count raised by eight per
    byte. This is how the padding of [Close] is passed over. *)
Theorem X11_Read_zero_bytes s buf j :
  state s = COUNTING_ZEROS -> nBits s = 0 -> r s = repeat 0 j ->
  0 <= zeros s -> zeros s + 8 * Z.of_nat j < 2 ^ 63 ->
  (1 <= length buf)%nat ->
  exists s',
    Read s buf = Some (s', buf, 0%nat, Some EOF) /\
    state s' = COUNTING_ZEROS /\ val s' = val s /\
    zeros s' = zeros s + 8 * Z.of_nat j.
Proof.
  intros Hst Hn Hr Hz Hb Hl.
  destruct (length buf) as [|room] eqn:Hlen; [lia|].
  assert (Hav : avail s = repeat false (8 * j)).
  { unfold avail. rewrite Hn, Hr, bytes_bits_zeros. reflexivity. }
  assert (Hp : pst s = mkParse COUNTING_ZEROS (val s) (zeros s)).
  { unfold pst. now rewrite Hst. }
  destruct (Read_spec s buf [] (mkParse COUNTING_ZEROS (val s)
                                  (zeros s + Z.of_nat (8 * j))) [])
    as (s' & HR & Hp' & _).
  { lia. }
  { rewrite Hlen, Hav, Hp. apply consume_zeros; lia. }
  exists s'. split; [exact HR|].
  unfold pst in Hp'. injection Hp' as -> -> ->.
  split; [reflexivity|]. split; [reflexivity|]. lia.
Qed.

Lemma X11_Read_zero_bytes_witness :
  state (NewExpGolombDecoder [0; 0]) = COUNTING_ZEROS /\
  nBits (NewExpGolombDecoder [0; 0]) = 0 /\
  r (NewExpGolombDecoder [0; 0]) = repeat 0 2 /\
  0 <= zeros (NewExpGolombDecoder [0; 0]) /\
  zeros (NewExpGolombDecoder [0; 0]) + 8 * Z.of_nat 2 < 2 ^ 63 /\
  (1 <= length [5])%nat /\
  exists s',
    Read (NewExpGolombDecoder [0; 0]) [5] = Some (s', [5], 0%nat, Some EOF) /\
    zeros s' = 16.
Proof.
  assert (H1 : state (NewExpGolombDecoder [0; 0]) = COUNTING_ZEROS) by reflexivity.
  assert (H2 : nBits (NewExpGolombDecoder [0; 0]) = 0) by reflexivity.
  assert (H3 : r (NewExpGolombDecoder [0; 0]) = repeat 0 2) by reflexivity.
  assert (H4 : 0 <= zeros (NewExpGolombDecoder [0; 0])) by (simpl; lia).
  assert (H5 : zeros (NewExpGolombDecoder [0; 0]) + 8 * Z.of_nat 2 < 2 ^ 63)
    by (simpl; lia).
  assert (H6 : (1 <= length [5])%nat) by (simpl; lia).
  split; [exact H1|]. split; [exact H2|]. split; [exact H3|].
  split; [exact H4|]. split; [exact H5|]. split; [exact H6|].
  destruct (X11_Read_zero_bytes _ [5] 2%nat H1 H2 H3 H4 H5 H6)
    as (s' & HR & _ & _ & Hz).
  exists s'. split; [exact HR | exact Hz].
Defined.

(** X12. What the decoder takes for a codeword carries no sign: [k] zero
    bits, a one bit and [k] further bits of value [x] are read as
    [2 ^ k + x - 1]. Bytes made of such codewords, with [k] up to 61, and
    zero bits after the last are decoded by [DeltaDecode] to the running
    sums of those values. *)
Theorem X12_DeltaDecode_plain base compressed cs pad :
  Forall (fun c => (fst c <= 61)%nat) cs -> Z.of_nat pad < 2 ^ 63 ->
  bytes_bits compressed = flat_map plain_codeword cs ++ repeat false pad ->
  DeltaDecode base compressed = Some (sums base (map plain_value cs)).
Proof.
  intros Hcs Hpad Hb. rewrite DeltaDecode_spec, Hb.
  unfold parse0. now rewrite run_plain_list.
Qed.

Lemma X12_DeltaDecode_plain_witness :
  Forall (fun c : nat * Z => (fst c <= 61)%nat) [(0%nat, 0); (1%nat, 0); (2%nat, 3)] /\
  Z.of_nat 7 < 2 ^ 63 /\
  bytes_bits [163; 128]
  = flat_map plain_codeword [(0%nat, 0); (1%nat, 0); (2%nat, 3)] ++ repeat false 7 /\
  DeltaDecode 10 [163; 128] = Some [10; 11; 17].
Proof.
  assert (H1 : Forall (fun c : nat * Z => (fst c <= 61)%nat)
                 [(0%nat, 0); (1%nat, 0); (2%nat, 3)])
    by (repeat constructor; simpl; lia).
  assert (H2 : Z.of_nat 7 < 2 ^ 63) by lia.
  assert (H3 : bytes_bits [163; 128]
               = flat_map plain_codeword [(0%nat, 0); (1%nat, 0); (2%nat, 3)]
                 ++ repeat false 7) by reflexivity.
  split; [exact H1|]. split; [exact H2|]. split; [exact H3|].
  exact (X12_DeltaDecode_plain 10 [163; 128] _ 7%nat H1 H2 H3).
Defined.

(** X13. Nothing in, nothing out: with its source and current byte used
    up, [Read] returns no value and the end signal, touching neither the
    slice nor the parse fields, however often it is called; [DeltaEncode]
    of no values is no bytes, and [DeltaDecode] of no bytes is no values. *)
Theorem X13_exhausted s buf start base :
  nBits s = 0 -> r s = [] ->
  Read s buf = Some (set_b s 0, buf, 0%nat, Some EOF) /\
  Read (set_b s 0) buf = Some (set_b s 0, buf, 0%nat, Some EOF) /\
  DeltaEncode start [] = Some [] /\
  DeltaDecode base [] = Some [].
Proof.
  intros Hn Hr. destruct s as [sr sb sst sv sz sn]. cbn in Hn, Hr. subst.
  repeat split; reflexivity.
Qed.

Lemma X13_exhausted_witness :
  nBits (mkDecoder [] 163 SHIFTING_BITS 3 2 0) = 0 /\
  r (mkDecoder [] 163 SHIFTING_BITS 3 2 0) = [] /\
  Read (mkDecoder [] 163 SHIFTING_BITS 3 2 0) [7]
  = Some (mkDecoder [] 0 SHIFTING_BITS 3 2 0, [7], 0%nat, Some EOF).
Proof.
  assert (H1 : nBits (mkDecoder [] 163 SHIFTING_BITS 3 2 0) = 0) by reflexivity.
  assert (H2 : r (mkDecoder [] 163 SHIFTING_BITS 3 2 0) = []) by reflexivity.
  split; [exact H1|]. split; [exact H2|].
  exact (proj1 (X13_exhausted _ [7] 0 0 H1 H2)).
Defined.

(** X14. [DeltaDecode] always returns, with at most eight values for each
    byte of its input. *)
Theorem X14_DeltaDecode_length base compressed :
  exists vs,
    DeltaDecode base compressed = Some vs /\
    (length vs <= 8 * length compressed)%nat.
Proof.
  eexists. split; [apply DeltaDecode_spec|].
  rewrite length_sums, <- length_bytes_bits. apply run_length.
Qed.

(** X15. Values that are not positive, encoded and read back in one call:
    each 0 comes back as 0 and each negative [v] as [- v] followed by a 0,
    which the decoder reads from the sign bit. *)
Theorem X15_nonpositive l :
  Forall (fun v => - (2 ^ 31 - 2) <= v <= 0) l ->
  exists bytes,
    encode l = Some bytes /\
    forall m, (8 * length bytes <= m)%nat ->
      exists s',
        read_at_once m (NewExpGolombDecoder []) bytes
        = Some (s', flat_map lost_sign l).
Proof.
  intros Hl.
  assert (Hr : Forall in_range l).
  { eapply Forall_impl; [exact Hl|].
    intros v Hv. cbv beta in Hv. unfold in_range. lia. }
  destruct (encode_bits l Hr) as (bytes & pad & He & Hpad & Hb).
  exists bytes. split; [exact He|]. intros m Hm.
  destruct (read_at_once_spec m bytes (NewExpGolombDecoder [])
              eq_refl eq_refl Hm) as (s2 & HR & _).
  exists s2. rewrite HR, Hb. do 2 f_equal.
  now apply (run_nonpositive l pad 0).
Qed.

Lemma X15_nonpositive_witness :
  Forall (fun v => - (2 ^ 31 - 2) <= v <= 0) [-3; 0; -7] /\
  encode [-3; 0; -7] = Some [38; 34] /\
  exists s', read_at_once 16 (NewExpGolombDecoder []) [38; 34]
             = Some (s', [3; 0; 0; 7; 0]).
Proof.
  assert (Hl : Forall (fun v => - (2 ^ 31 - 2) <= v <= 0) [-3; 0; -7])
    by (repeat constructor; lia).
  split; [exact Hl|]. split; [reflexivity|].
  destruct (X15_nonpositive [-3; 0; -7] Hl) as (bytes & He & HR).
  assert (Hb : bytes = [38; 34]).
  { assert (He' : encode [-3; 0; -7] = Some [38; 34]) by reflexivity.
    congruence. }
  subst bytes. apply HR. simpl. lia.
Defined.
